(** * Poly1305 one-time authenticator: a shallow embedding of package poly1305

    The Go source keeps the 130-bit accumulator in five [uint32] limbs of
    26 bits, multiplies in [uint64], and buffers the unprocessed tail of the
    message in a 16-byte array.  Machine integers are modelled as [Z] with the
    wrap-around written out, byte slices as lists of [byte] together with the
    spare capacity of their backing array, and the methods of the streaming
    engine as computations in a small state-and-panic monad over the
    receiver. *)

From Stdlib Require Import Strings.String Strings.Byte.
From Stdlib Require Import ZArith List Lia Bool.
Import ListNotations.
Local Open Scope Z_scope.

(** ** Fixed-width integers *)

Module Word.

(** [uint32(x)] and [uint64(x)]: conversion keeps the low bits. *)
Definition u32 (x : Z) : Z := x mod 2 ^ 32.

Definition u64 (x : Z) : Z := x mod 2 ^ 64.

Definition add32 (a b : Z) : Z := u32 (a + b).

Definition sub32 (a b : Z) : Z := u32 (a - b).

Definition mul32 (a b : Z) : Z := u32 (a * b).

Definition shl32 (a k : Z) : Z := u32 (Z.shiftl a k).

Definition shr (a k : Z) : Z := Z.shiftr a k.

(** [^a] on a [uint32]. *)
Definition not32 (a : Z) : Z := u32 (Z.lnot a).

Definition add64 (a b : Z) : Z := u64 (a + b).

Definition mul64 (a b : Z) : Z := u64 (a * b).

(** A [byte] as the number it holds, and [byte(x)] on an integer. *)
Definition byte_val (b : byte) : Z := Z.of_N (Byte.to_N b).

Definition to_byte (x : Z) : byte :=
  match Byte.of_N (Z.to_N (x mod 256)) with
  | Some b => b
  | None => x00
  end.

End Word.

Import Word.

(** ** Results of operations that may panic *)

Inductive result (A : Type) : Type :=
| Ok (a : A)
| Panic (why : string).

Arguments Ok {A} a.
Arguments Panic {A} why.

Definition rbind {A B : Type} (x : result A) (k : A -> result B) : result B :=
  match x with
  | Ok a => k a
  | Panic why => Panic why
  end.

Declare Scope result_scope.
Delimit Scope result_scope with result.
Notation "x <- e ;; k" := (rbind e (fun x => k))
  (at level 61, e at next level, right associativity) : result_scope.

(** ** Slices and arrays *)

(** A Go slice: the [len] visible elements, and the elements of the backing
    array that lie between [len] and [cap].  Re-slicing [s[:hi]] is checked
    against the capacity, [s[lo:]] and indexing against the length. *)
Record slice : Type := Slice { elems : list byte; spare : list byte }.

Definition of_bytes (l : list byte) : slice := Slice l [].

Definition len (l : list byte) : Z := Z.of_nat (length l).

Definition slen (s : slice) : Z := len (elems s).

Definition scap (s : slice) : Z := len (elems s) + len (spare s).

Definition index_out_of_range : string :=
  "runtime error: index out of range"%string.

Definition slice_out_of_range : string :=
  "runtime error: slice bounds out of range"%string.

(** [s[:hi]] *)
Definition slice_to (s : slice) (hi : Z) : result slice :=
  if (0 <=? hi) && (hi <=? scap s) then
    let all := elems s ++ spare s in
    Ok (Slice (firstn (Z.to_nat hi) all) (skipn (Z.to_nat hi) all))
  else Panic slice_out_of_range.

(** [s[lo:]] *)
Definition slice_from (s : slice) (lo : Z) : result slice :=
  if (0 <=? lo) && (lo <=? slen s) then
    Ok (Slice (skipn (Z.to_nat lo) (elems s)) (spare s))
  else Panic slice_out_of_range.

(** [s[i]] converted to [uint32] *)
Definition at32 (s : list byte) (i : Z) : result Z :=
  if (0 <=? i) && (i <? len s) then
    Ok (byte_val (nth (Z.to_nat i) s x00))
  else Panic index_out_of_range.

(** [a[i]] on an array whose length is fixed by its type. *)
Definition get (a : list byte) (i : nat) : Z := byte_val (nth i a x00).

(** [copy(dst[off:], src)] on an array [dst]: the new contents of [dst] and
    the number of bytes copied. *)
Definition copy_at (dst : list byte) (off : Z) (src : list byte) : list byte * Z :=
  let o := Z.to_nat off in
  let n := Nat.min (length dst - o) (length src) in
  (firstn o dst ++ firstn n src ++ skipn (o + n) dst, Z.of_nat n).

(** [a[i] = b] on an array. *)
Definition set_at (a : list byte) (i : Z) (b : byte) : list byte :=
  let o := Z.to_nat i in
  firstn o a ++ b :: skipn (S o) a.

(** [[5]uint32] and [[4]uint32]. *)
Record limbs : Type := Limbs { l0 : Z; l1 : Z; l2 : Z; l3 : Z; l4 : Z }.

Record words : Type := Words { w0 : Z; w1 : Z; w2 : Z; w3 : Z }.

(** ** Package poly1305 *)

(** [init] probes the byte order and then, on its last line, clears the flag
    again whatever the probe found.  The arguments stand for the two facts
    the probe reads from its environment. *)
Definition init (goarch_is_arm mark_reads_0000feff : bool) : bool :=
  let littleEndian := false in
  let littleEndian :=
    if negb goarch_is_arm then
      if mark_reads_0000feff then true else littleEndian
    else littleEndian in
  let littleEndian := false in
  littleEndian.

(** Every [if littleEndian] of the package therefore runs its [else] branch,
    the byte-wise codec; [initialize], [update] and [finish] below embed
    those branches. *)
Definition TagSize : Z := 16.

Definition msgBlock : Z := u32 (Z.shiftl 1 24).

Definition finalBlock : Z := u32 0.

(** [uint32(b0) | uint32(b1)<<8 | uint32(b2)<<16 | uint32(b3)<<24] *)
Definition le32 (b0 b1 b2 b3 : Z) : Z :=
  Z.lor (Z.lor (Z.lor b0 (shl32 b1 8)) (shl32 b2 16)) (shl32 b3 24).

Definition initialize (key : list byte) : limbs * words :=
  (Limbs (Z.land (le32 (get key 0) (get key 1) (get key 2) (get key 3)) 0x3ffffff)
         (Z.land (shr (le32 (get key 3) (get key 4) (get key 5) (get key 6)) 2) 0x3ffff03)
         (Z.land (shr (le32 (get key 6) (get key 7) (get key 8) (get key 9)) 4) 0x3ffc0ff)
         (Z.land (shr (le32 (get key 9) (get key 10) (get key 11) (get key 12)) 6) 0x3f03fff)
         (Z.land (shr (le32 (get key 12) (get key 13) (get key 14) (get key 15)) 8) 0x00fffff),
   Words (le32 (get key 16) (get key 17) (get key 18) (get key 19))
         (le32 (get key 20) (get key 21) (get key 22) (get key 23))
         (le32 (get key 24) (get key 25) (get key 26) (get key 27))
         (le32 (get key 28) (get key 29) (get key 30) (get key 31))).

Local Open Scope result_scope.

(** The multiplier as [update] prepares it once per call:
    [r0..r4] widened to [uint64], and [s1..s4 = uint64(r[i]*5)]. *)
Record multiplier : Type :=
  Multiplier { r0 : Z; r1 : Z; r2 : Z; r3 : Z; r4 : Z;
               s1 : Z; s2 : Z; s3 : Z; s4 : Z }.

Definition prepare (r : limbs) : multiplier :=
  Multiplier (u64 (l0 r)) (u64 (l1 r)) (u64 (l2 r)) (u64 (l3 r)) (u64 (l4 r))
             (u64 (mul32 (l1 r) 5)) (u64 (mul32 (l2 r) 5))
             (u64 (mul32 (l3 r) 5)) (u64 (mul32 (l4 r) 5)).

(** The five 26-bit limbs read from a block, the flag ORed into the last. *)
Definition decode (b0 b1 b2 b3 b4 b5 b6 b7 b8 b9 b10 b11 b12 b13 b14 b15 flag : Z)
  : limbs :=
  Limbs (Z.land (le32 b0 b1 b2 b3) 0x3ffffff)
        (Z.land (shr (le32 b3 b4 b5 b6) 2) 0x3ffffff)
        (Z.land (shr (le32 b6 b7 b8 b9) 4) 0x3ffffff)
        (Z.land (shr (le32 b9 b10 b11 b12) 6) 0x3ffffff)
        (Z.lor (shr (le32 b12 b13 b14 b15) 8) flag).

(** [h += m; h *= r; h %= p]: the body of the loop once the block is read. *)
Definition fold_limbs (k : multiplier) (h m : limbs) : limbs :=
  (* h += m *)
  let h0 := add32 (l0 h) (l0 m) in
  let h1 := add32 (l1 h) (l1 m) in
  let h2 := add32 (l2 h) (l2 m) in
  let h3 := add32 (l3 h) (l3 m) in
  let h4 := add32 (l4 h) (l4 m) in
  (* h *= r *)
  let d0 := add64 (add64 (add64 (add64 (mul64 (u64 h0) (r0 k)) (mul64 (u64 h1) (s4 k)))
                (mul64 (u64 h2) (s3 k))) (mul64 (u64 h3) (s2 k))) (mul64 (u64 h4) (s1 k)) in
  let d1 := add64 (add64 (add64 (add64 (add64 (shr d0 26) (mul64 (u64 h0) (r1 k)))
                (mul64 (u64 h1) (r0 k))) (mul64 (u64 h2) (s4 k)))
                (mul64 (u64 h3) (s3 k))) (mul64 (u64 h4) (s2 k)) in
  let d2 := add64 (add64 (add64 (add64 (add64 (shr d1 26) (mul64 (u64 h0) (r2 k)))
                (mul64 (u64 h1) (r1 k))) (mul64 (u64 h2) (r0 k)))
                (mul64 (u64 h3) (s4 k))) (mul64 (u64 h4) (s3 k)) in
  let d3 := add64 (add64 (add64 (add64 (add64 (shr d2 26) (mul64 (u64 h0) (r3 k)))
                (mul64 (u64 h1) (r2 k))) (mul64 (u64 h2) (r1 k)))
                (mul64 (u64 h3) (r0 k))) (mul64 (u64 h4) (s4 k)) in
  let d4 := add64 (add64 (add64 (add64 (add64 (shr d3 26) (mul64 (u64 h0) (r4 k)))
                (mul64 (u64 h1) (r3 k))) (mul64 (u64 h2) (r2 k)))
                (mul64 (u64 h3) (r1 k))) (mul64 (u64 h4) (r0 k)) in
  (* h %= p *)
  let h0 := Z.land (u32 d0) 0x3ffffff in
  let h1 := Z.land (u32 d1) 0x3ffffff in
  let h2 := Z.land (u32 d2) 0x3ffffff in
  let h3 := Z.land (u32 d3) 0x3ffffff in
  let h4 := Z.land (u32 d4) 0x3ffffff in
  let h0 := add32 h0 (mul32 (u32 (shr d4 26)) 5) in
  let h1 := add32 h1 (shr h0 26) in
  let h0 := Z.land h0 0x3ffffff in
  Limbs h0 h1 h2 h3 h4.

(** One turn of the loop of [update], at index [i]: sixteen checked reads
    [msg[i] .. msg[i+15]], then the arithmetic. *)
Definition update_block (msg : list byte) (i flag : Z) (k : multiplier) (h : limbs)
  : result limbs :=
  b0 <- at32 msg i;; b1 <- at32 msg (i + 1);; b2 <- at32 msg (i + 2);;
  b3 <- at32 msg (i + 3);; b4 <- at32 msg (i + 4);; b5 <- at32 msg (i + 5);;
  b6 <- at32 msg (i + 6);; b7 <- at32 msg (i + 7);; b8 <- at32 msg (i + 8);;
  b9 <- at32 msg (i + 9);; b10 <- at32 msg (i + 10);; b11 <- at32 msg (i + 11);;
  b12 <- at32 msg (i + 12);; b13 <- at32 msg (i + 13);; b14 <- at32 msg (i + 14);;
  b15 <- at32 msg (i + 15);;
  Ok (fold_limbs k h
        (decode b0 b1 b2 b3 b4 b5 b6 b7 b8 b9 b10 b11 b12 b13 b14 b15 flag)).

Definition loop_budget_exceeded : string := "loop budget exceeded"%string.

(** [for i := 0; i < len(msg); i += TagSize { ... }], from index [i] on.
    [turns] bounds the number of turns; [update] starts it with one turn per
    byte of [msg], which the loop never uses up ([update_loop_budget]). *)
Fixpoint update_loop (turns : nat) (msg : list byte) (i flag : Z)
    (k : multiplier) (h : limbs) : result limbs :=
  if i <? len msg then
    match turns with
    | O => Panic loop_budget_exceeded
    | S turns' =>
        h' <- update_block msg i flag k h;;
        update_loop turns' msg (i + TagSize) flag k h'
    end
  else Ok h.

(** [update] stores into [h] only after the loop; a panic inside the loop
    leaves [h] as it was, so the result alone describes the call. *)
Definition update (msg : list byte) (flag : Z) (h r : limbs) : result limbs :=
  update_loop (length msg) msg 0 flag (prepare r) h.

(** [finish]: the encoded tag. *)
Definition finish (h : limbs) (pad : words) : list byte :=
  (* fully carry h *)
  let h0 := l0 h in
  let h1 := l1 h in
  let h2 := l2 h in
  let h3 := l3 h in
  let h4 := l4 h in
  let h2 := add32 h2 (shr h1 26) in
  let h1 := Z.land h1 0x3ffffff in
  let h3 := add32 h3 (shr h2 26) in
  let h2 := Z.land h2 0x3ffffff in
  let h4 := add32 h4 (shr h3 26) in
  let h3 := Z.land h3 0x3ffffff in
  let h0 := add32 h0 (mul32 5 (shr h4 26)) in
  let h4 := Z.land h4 0x3ffffff in
  let h1 := add32 h1 (shr h0 26) in
  let h0 := Z.land h0 0x3ffffff in
  (* h + -p *)
  let g0 := add32 h0 5 in
  let g1 := add32 h1 (shr g0 26) in
  let g0 := Z.land g0 0x3ffffff in
  let g2 := add32 h2 (shr g1 26) in
  let g1 := Z.land g1 0x3ffffff in
  let g3 := add32 h3 (shr g2 26) in
  let g2 := Z.land g2 0x3ffffff in
  let g4 := sub32 (add32 h4 (shr g3 26)) (Z.shiftl 1 26) in
  let g3 := Z.land g3 0x3ffffff in
  (* select h if h < p else h + -p *)
  let mask := sub32 (shr g4 (32 - 1)) 1 in
  let g0 := Z.land g0 mask in
  let g1 := Z.land g1 mask in
  let g2 := Z.land g2 mask in
  let g3 := Z.land g3 mask in
  let g4 := Z.land g4 mask in
  let mask := not32 mask in
  let h0 := Z.lor (Z.land h0 mask) g0 in
  let h1 := Z.lor (Z.land h1 mask) g1 in
  let h2 := Z.lor (Z.land h2 mask) g2 in
  let h3 := Z.lor (Z.land h3 mask) g3 in
  let h4 := Z.lor (Z.land h4 mask) g4 in
  (* h %= 2^128 *)
  let h0 := Z.lor h0 (shl32 h1 26) in
  let h1 := Z.lor (shr h1 6) (shl32 h2 20) in
  let h2 := Z.lor (shr h2 12) (shl32 h3 14) in
  let h3 := Z.lor (shr h3 18) (shl32 h4 8) in
  (* tag = (h + pad) % (2^128) *)
  let f := add64 (u64 h0) (u64 (w0 pad)) in
  let h0 := u32 f in
  let f := add64 (add64 (u64 h1) (u64 (w1 pad))) (shr f 32) in
  let h1 := u32 f in
  let f := add64 (add64 (u64 h2) (u64 (w2 pad))) (shr f 32) in
  let h2 := u32 f in
  let f := add64 (add64 (u64 h3) (u64 (w3 pad))) (shr f 32) in
  let h3 := u32 f in
  [ to_byte h0; to_byte (shr h0 8); to_byte (shr h0 16); to_byte (shr h0 24);
    to_byte h1; to_byte (shr h1 8); to_byte (shr h1 16); to_byte (shr h1 24);
    to_byte h2; to_byte (shr h2 8); to_byte (shr h2 16); to_byte (shr h2 24);
    to_byte h3; to_byte (shr h3 8); to_byte (shr h3 16); to_byte (shr h3 24) ].

(** ** The streaming engine *)

(** [crypto.KeySizeError(k)], the error of the parent package. *)
Inductive error : Type :=
| KeySizeError (k : Z).

Record polyHash : Type :=
  PolyHash { h : limbs; r : limbs; pad : words; buf : list byte; off : Z }.

Definition with_h (p : polyHash) (x : limbs) : polyHash :=
  PolyHash x (r p) (pad p) (buf p) (off p).

Definition with_buf (p : polyHash) (x : list byte) : polyHash :=
  PolyHash (h p) (r p) (pad p) x (off p).

Definition with_off (p : polyHash) (x : Z) : polyHash :=
  PolyHash (h p) (r p) (pad p) (buf p) x.

(** A method body: it reads and writes the receiver and may panic.  After a
    panic the receiver stays as the body left it. *)
Definition method (A : Type) : Type := polyHash -> result A * polyHash.

Definition ret {A : Type} (a : A) : method A := fun p => (Ok a, p).

Definition bind {A B : Type} (m : method A) (k : A -> method B) : method B :=
  fun p =>
    match m p with
    | (Ok a, p') => k a p'
    | (Panic why, p') => (Panic why, p')
    end.

Definition lift {A : Type} (x : result A) : method A := fun p => (x, p).

Definition receiver : method polyHash := fun p => (Ok p, p).

Definition store (f : polyHash -> polyHash) : method unit := fun p => (Ok tt, f p).

Declare Scope method_scope.
Delimit Scope method_scope with method.
Notation "x <- e ;; k" := (bind e (fun x => k))
  (at level 61, e at next level, right associativity) : method_scope.

Notation "e ;; k" := (bind e (fun _ => k))
  (at level 61, right associativity) : method_scope.

Local Open Scope method_scope.

(** The zero value that [new(polyHash)] allocates. *)
Definition zero_polyHash : polyHash :=
  PolyHash (Limbs 0 0 0 0 0) (Limbs 0 0 0 0 0) (Words 0 0 0 0)
           (repeat x00 (Z.to_nat TagSize)) 0.

Definition New (key : list byte) : polyHash + error :=
  let k := len key in
  if negb (k =? 32) then inr (KeySizeError k)
  else
    let k := fst (copy_at (repeat x00 32) 0 key) in
    let p := zero_polyHash in
    let '(r', pad') := initialize k in
    inl (PolyHash (h p) r' pad' (buf p) (off p)).

Definition BlockSize (p : polyHash) : Z := TagSize.

Definition Size (p : polyHash) : Z := TagSize.

Definition Reset : method unit :=
  lift (Panic "poly1305 does not support Reset() - poly1305 is insecure if one key is used twice!"%string).

(** [p.off += copy(p.buf[p.off:], src)] *)
Definition fill (src : list byte) : method unit :=
  p <- receiver;;
  if (0 <=? off p) && (off p <=? len (buf p)) then
    let '(b, n) := copy_at (buf p) (off p) src in
    store (fun p => with_off (with_buf p b) (off p + n))
  else lift (Panic slice_out_of_range).

(** [update(block, flag, &(p.h), &(p.r))] *)
Definition absorb (block : list byte) (flag : Z) : method unit :=
  p <- receiver;;
  h' <- lift (update block flag (h p) (r p));;
  store (fun p => with_h p h').

Definition Write (msg : slice) : method (Z * option error) :=
  let n := slen msg in
  p <- receiver;;
  let diff := TagSize - off p in
  msg <- (if 0 <? off p then
            head <- lift (slice_to msg diff);;
            fill (elems head);;
            p <- receiver;;
            (if off p =? TagSize then
               absorb (buf p) msgBlock;;
               store (fun p => with_off p 0)
             else ret tt);;
            lift (slice_from msg diff)
          else ret msg);;
  let length := Z.land (slen msg) (Z.lnot (TagSize - 1)) in
  msg <- (if 0 <? length then
            head <- lift (slice_to msg length);;
            absorb (elems head) msgBlock;;
            lift (slice_from msg length)
          else ret msg);;
  (if 0 <? slen msg then fill (elems msg) else ret tt);;
  ret (n, None).

(** [for i := p0.off + 1; i < TagSize; i++ { p0.buf[i] = 0 }], from [i] on;
    sixteen turns are always enough since [i] starts above zero. *)
Fixpoint zero_fill (turns : nat) (b : list byte) (i : Z) : list byte :=
  match turns with
  | O => b
  | S turns' =>
      if i <? TagSize then zero_fill turns' (set_at b i x00) (i + 1) else b
  end.

(** The body of [Sum], run on the copy [p0]. *)
Definition Sum_on_copy : method (list byte) :=
  p0 <- receiver;;
  (if 0 <? off p0 then
     (if off p0 <? len (buf p0) then
        store (fun p0 => with_buf p0 (set_at (buf p0) (off p0) x01))
      else lift (Panic index_out_of_range));;
     store (fun p0 =>
              with_buf p0 (zero_fill (Z.to_nat TagSize) (buf p0) (off p0 + 1)));;
     p0 <- receiver;;
     absorb (buf p0) finalBlock
   else ret tt);;
  p0 <- receiver;;
  ret (finish (h p0) (pad p0)).

(** [Sum] copies the receiver ([p0 := *p], a struct of arrays), works on the
    copy, and returns [append(b, mac[:]...)]: the contents of [b] followed
    by the tag. *)
Definition Sum (b : slice) : method (list byte) :=
  fun p =>
    let p0 := p in
    match Sum_on_copy p0 with
    | (Ok mac, _) => (Ok (elems b ++ mac), p)
    | (Panic why, _) => (Panic why, p)
    end.

(** ** One-shot interface *)

(** [subtle.ConstantTimeByteEq] and [subtle.ConstantTimeCompare] of the Go
    standard library. *)
Definition ConstantTimeByteEq (x y : Z) : Z :=
  shr (sub32 (u32 (Z.lxor x y)) 1) 31.

Definition ConstantTimeCompare (x y : list byte) : Z :=
  if negb (len x =? len y) then 0
  else
    let v := fold_left (fun v xy => Z.lor v (Z.lxor (byte_val (fst xy)) (byte_val (snd xy))))
                       (combine x y) 0 in
    ConstantTimeByteEq v 0.

(** Modelled from the spec: the package-level [Sum(out, msg, key)] that
    [Verify] calls is not among the sources.  The spec has the standalone
    operation perform a full init + update + finish over a fresh engine:
    construct with the key, feed the whole message, finish. *)
Definition Sum1 (msg : slice) (key : list byte) : result (list byte) :=
  match New key with
  | inr _ => Panic "invalid key size"%string
  | inl p =>
      fst ((Write msg;; Sum (of_bytes [])) p)
  end.

Definition Verify (mac : list byte) (msg : slice) (key : list byte) : result bool :=
  (sum <- Sum1 msg key;;
   Ok (ConstantTimeCompare sum mac =? 1))%result.

(** * Vocabulary of the proofs *)

(** ** Blocks and the state of the buffer *)

(** The block at offset [i] of a list that holds it, decoded. *)
Definition decode_at (msg : list byte) (i : nat) (flag : Z) : limbs :=
  decode (get msg i) (get msg (i + 1)) (get msg (i + 2)) (get msg (i + 3))
         (get msg (i + 4)) (get msg (i + 5)) (get msg (i + 6)) (get msg (i + 7))
         (get msg (i + 8)) (get msg (i + 9)) (get msg (i + 10)) (get msg (i + 11))
         (get msg (i + 12)) (get msg (i + 13)) (get msg (i + 14)) (get msg (i + 15))
         flag.

(** [n] blocks of [msg] from offset [i] on, folded in order. *)
Fixpoint fold_blocks (n : nat) (msg : list byte) (i : nat) (flag : Z)
    (k : multiplier) (x : limbs) : limbs :=
  match n with
  | O => x
  | S n' => fold_blocks n' msg (i + 16) flag k (fold_limbs k x (decode_at msg i flag))
  end.

(** A well-formed engine: the buffer is a 16-byte array and the offset lies
    inside it. *)
Definition well_formed (p : polyHash) : Prop :=
  length (buf p) = 16%nat /\ 0 <= off p < 16.

(** The two halves of [Write]: completing a partly filled buffer, and
    consuming the rest of the input. *)
Definition Write_head (msg : slice) : method slice :=
  p <- receiver;;
  let diff := TagSize - off p in
  if 0 <? off p then
    head <- lift (slice_to msg diff);;
    fill (elems head);;
    p <- receiver;;
    (if off p =? TagSize then
       absorb (buf p) msgBlock;;
       store (fun p => with_off p 0)
     else ret tt);;
    lift (slice_from msg diff)
  else ret msg.

Definition Write_tail (msg : slice) : method unit :=
  let length := Z.land (slen msg) (Z.lnot (TagSize - 1)) in
  msg <- (if 0 <? length then
            head <- lift (slice_to msg length);;
            absorb (elems head) msgBlock;;
            lift (slice_from msg length)
          else ret msg);;
  (if 0 <? slen msg then fill (elems msg) else ret tt).

(** The bytes left in a slice after its whole blocks. *)
Definition whole (m : list byte) : nat := (length m / 16)%nat.

Definition tail (m : list byte) : list byte := skipn (16 * whole m) m.

(** What [Write] does first when the buffer is partly filled and the input
    reaches its end: the buffer is completed, folded, and emptied. *)
Definition completed (p : polyHash) (m : list byte) : polyHash :=
  let b := firstn (Z.to_nat (off p)) (buf p)
           ++ firstn (16 - Z.to_nat (off p)) m in
  PolyHash (fold_limbs (prepare (r p)) (h p) (decode_at b 0 msgBlock))
           (r p) (pad p) b 0.

(** What [Write] leaves behind when it starts from an empty buffer: the
    whole blocks of the input folded, its tail buffered. *)
Definition buffered (p : polyHash) (m : list byte) : polyHash :=
  PolyHash (fold_blocks (whole m) m 0 msgBlock (prepare (r p)) (h p))
           (r p) (pad p)
           (tail m ++ skipn (length (tail m)) (buf p))
           (len (tail m)).

(** ** Construction and reachable engines *)

Definition zero_limbs : limbs := Limbs 0 0 0 0 0.

(** The engine that [New] returns for a key of 32 bytes. *)
Definition fresh (key : list byte) : polyHash :=
  PolyHash zero_limbs (fst (initialize key)) (snd (initialize key))
           (repeat x00 16) 0.

(** The engines a caller can hold: the result of a successful [New], and the
    receiver after any [Write] on such an engine, whether that call returned
    or panicked and the caller recovered. *)
Inductive reachable : polyHash -> Prop :=
| reachable_New (key : list byte) (p : polyHash) :
    New key = inl p -> reachable p
| reachable_Write (msg : slice) (p : polyHash) :
    reachable p -> reachable (snd (Write msg p)).

(** The buffer as [Sum] pads it: the buffered bytes, one [0x01], zeros. *)
Definition padded (p : polyHash) : list byte :=
  firstn (Z.to_nat (off p)) (buf p)
  ++ x01 :: repeat x00 (15 - Z.to_nat (off p)).

(** The accumulator that [Sum] hands to [finish]. *)
Definition final_h (p : polyHash) : limbs :=
  if 0 <? off p then
    fold_limbs (prepare (r p)) (h p) (decode_at (padded p) 0 finalBlock)
  else h p.

(** The accumulator after the whole blocks of [m]. *)
Definition absorbed (k : multiplier) (m : list byte) (x : limbs) : limbs :=
  fold_blocks (whole m) m 0 msgBlock k x.

(** The engine [p], keyed with [key], has been fed exactly the bytes [m]. *)
Definition holds (key m : list byte) (p : polyHash) : Prop :=
  r p = fst (initialize key) /\ pad p = snd (initialize key) /\
  length (buf p) = 16%nat /\
  h p = absorbed (prepare (r p)) m zero_limbs /\
  off p = len (tail m) /\
  firstn (length (tail m)) (buf p) = tail m.

(** The tag of a message as a function of the key and the bytes alone:
    whole blocks with the full-block flag, the padded tail without it. *)
Definition mac (key m : list byte) : list byte :=
  let k := prepare (fst (initialize key)) in
  let x := absorbed k m zero_limbs in
  let t := tail m in
  finish
    (if 0 <? len t then
       fold_limbs k x
         (decode_at (t ++ x01 :: repeat x00 (15 - length t)) 0 finalBlock)
     else x)
    (snd (initialize key)).

(** Successive [Write] calls, one per chunk. *)
Fixpoint Writes (chunks : list slice) : method unit :=
  match chunks with
  | [] => ret tt
  | c :: chunks' => Write c;; Writes chunks'
  end.

(** ** Arithmetic of [finish] *)

(** The modulus, and the numbers that limbs and words stand for. *)
Definition P1305 : Z := 2 ^ 130 - 5.

Definition value (x : limbs) : Z :=
  l0 x + 2 ^ 26 * l1 x + 2 ^ 52 * l2 x + 2 ^ 78 * l3 x + 2 ^ 104 * l4 x.

Definition wvalue (x : words) : Z :=
  w0 x + 2 ^ 32 * w1 x + 2 ^ 64 * w2 x + 2 ^ 96 * w3 x.

(** Little-endian encoding of a number on [n] bytes. *)
Fixpoint le_bytes (n : nat) (x : Z) : list byte :=
  match n with
  | O => []
  | S n' => to_byte x :: le_bytes n' (x / 256)
  end.

(** The limb ranges [update] leaves: 26 bits everywhere, except that the
    second limb may exceed them by the last, unpropagated carry. *)
Definition carried (x : limbs) : Prop :=
  0 <= l0 x < 2 ^ 26 /\ 0 <= l1 x < 2 ^ 26 + 2 ^ 6 /\
  0 <= l2 x < 2 ^ 26 /\ 0 <= l3 x < 2 ^ 26 /\ 0 <= l4 x < 2 ^ 26.

Definition canonical (x : limbs) : Prop :=
  0 <= l0 x < 2 ^ 26 /\ 0 <= l1 x < 2 ^ 26 /\
  0 <= l2 x < 2 ^ 26 /\ 0 <= l3 x < 2 ^ 26 /\ 0 <= l4 x < 2 ^ 26.

Definition words_ok (x : words) : Prop :=
  0 <= w0 x < 2 ^ 32 /\ 0 <= w1 x < 2 ^ 32 /\
  0 <= w2 x < 2 ^ 32 /\ 0 <= w3 x < 2 ^ 32.

(** The stages of [finish]. *)
Definition full_carry (x : limbs) : limbs :=
  let h0 := l0 x in
  let h1 := l1 x in
  let h2 := l2 x in
  let h3 := l3 x in
  let h4 := l4 x in
  let h2 := add32 h2 (shr h1 26) in
  let h1 := Z.land h1 0x3ffffff in
  let h3 := add32 h3 (shr h2 26) in
  let h2 := Z.land h2 0x3ffffff in
  let h4 := add32 h4 (shr h3 26) in
  let h3 := Z.land h3 0x3ffffff in
  let h0 := add32 h0 (mul32 5 (shr h4 26)) in
  let h4 := Z.land h4 0x3ffffff in
  let h1 := add32 h1 (shr h0 26) in
  let h0 := Z.land h0 0x3ffffff in
  Limbs h0 h1 h2 h3 h4.

Definition select (x : limbs) : limbs :=
  let h0 := l0 x in
  let h1 := l1 x in
  let h2 := l2 x in
  let h3 := l3 x in
  let h4 := l4 x in
  let g0 := add32 h0 5 in
  let g1 := add32 h1 (shr g0 26) in
  let g0 := Z.land g0 0x3ffffff in
  let g2 := add32 h2 (shr g1 26) in
  let g1 := Z.land g1 0x3ffffff in
  let g3 := add32 h3 (shr g2 26) in
  let g2 := Z.land g2 0x3ffffff in
  let g4 := sub32 (add32 h4 (shr g3 26)) (Z.shiftl 1 26) in
  let g3 := Z.land g3 0x3ffffff in
  let mask := sub32 (shr g4 (32 - 1)) 1 in
  let g0 := Z.land g0 mask in
  let g1 := Z.land g1 mask in
  let g2 := Z.land g2 mask in
  let g3 := Z.land g3 mask in
  let g4 := Z.land g4 mask in
  let mask := not32 mask in
  Limbs (Z.lor (Z.land h0 mask) g0) (Z.lor (Z.land h1 mask) g1)
        (Z.lor (Z.land h2 mask) g2) (Z.lor (Z.land h3 mask) g3)
        (Z.lor (Z.land h4 mask) g4).

Definition pack (x : limbs) : words :=
  Words (Z.lor (l0 x) (shl32 (l1 x) 26))
        (Z.lor (shr (l1 x) 6) (shl32 (l2 x) 20))
        (Z.lor (shr (l2 x) 12) (shl32 (l3 x) 14))
        (Z.lor (shr (l3 x) 18) (shl32 (l4 x) 8)).

Definition add_pad (x pad : words) : words :=
  let f := add64 (u64 (w0 x)) (u64 (w0 pad)) in
  let h0 := u32 f in
  let f := add64 (add64 (u64 (w1 x)) (u64 (w1 pad))) (shr f 32) in
  let h1 := u32 f in
  let f := add64 (add64 (u64 (w2 x)) (u64 (w2 pad))) (shr f 32) in
  let h2 := u32 f in
  let f := add64 (add64 (u64 (w3 x)) (u64 (w3 pad))) (shr f 32) in
  let h3 := u32 f in
  Words h0 h1 h2 h3.

Definition encode (x : words) : list byte :=
  [ to_byte (w0 x); to_byte (shr (w0 x) 8); to_byte (shr (w0 x) 16); to_byte (shr (w0 x) 24);
    to_byte (w1 x); to_byte (shr (w1 x) 8); to_byte (shr (w1 x) 16); to_byte (shr (w1 x) 24);
    to_byte (w2 x); to_byte (shr (w2 x) 8); to_byte (shr (w2 x) 16); to_byte (shr (w2 x) 24);
    to_byte (w3 x); to_byte (shr (w3 x) 8); to_byte (shr (w3 x) 16); to_byte (shr (w3 x) 24) ].

(** The tag that exact arithmetic assigns to an accumulator value [v] and a
    pad: reduce modulo p, keep 128 bits, add the pad modulo 2^128, and
    encode little-endian. *)
Definition reference_tag (v : Z) (pad : words) : list byte :=
  le_bytes 16 (((v mod P1305) mod 2 ^ 128 + wvalue pad) mod 2 ^ 128).

(** The accumulated difference of [ConstantTimeCompare]. *)
Definition differences (x y : list byte) (v : Z) : Z :=
  fold_left (fun v xy => Z.lor v (Z.lxor (byte_val (fst xy)) (byte_val (snd xy))))
            (combine x y) v.

(** ** Arithmetic of one fold *)

(** The limbs of a decoded block: 26 bits, and 25 for the last, which
    carries the flag. *)
Definition block_limbs (m : limbs) : Prop :=
  0 <= l0 m < 2 ^ 26 /\ 0 <= l1 m < 2 ^ 26 /\
  0 <= l2 m < 2 ^ 26 /\ 0 <= l3 m < 2 ^ 26 /\ 0 <= l4 m < 2 ^ 25.

(** The stages of [fold_limbs]. *)
Definition add_block (x m : limbs) : limbs :=
  Limbs (add32 (l0 x) (l0 m)) (add32 (l1 x) (l1 m)) (add32 (l2 x) (l2 m))
        (add32 (l3 x) (l3 m)) (add32 (l4 x) (l4 m)).

Definition column0 (a : limbs) (k0 k1 k2 k3 k4 : Z) : Z :=
  add64 (add64 (add64 (add64 (mul64 (u64 (l0 a)) k0) (mul64 (u64 (l1 a)) k1))
           (mul64 (u64 (l2 a)) k2)) (mul64 (u64 (l3 a)) k3)) (mul64 (u64 (l4 a)) k4).

Definition column (c : Z) (a : limbs) (k0 k1 k2 k3 k4 : Z) : Z :=
  add64 (add64 (add64 (add64 (add64 c (mul64 (u64 (l0 a)) k0))
           (mul64 (u64 (l1 a)) k1)) (mul64 (u64 (l2 a)) k2))
           (mul64 (u64 (l3 a)) k3)) (mul64 (u64 (l4 a)) k4).

Definition reduce (d0 d1 d2 d3 d4 : Z) : limbs :=
  let h0 := Z.land (u32 d0) 0x3ffffff in
  let h1 := Z.land (u32 d1) 0x3ffffff in
  let h2 := Z.land (u32 d2) 0x3ffffff in
  let h3 := Z.land (u32 d3) 0x3ffffff in
  let h4 := Z.land (u32 d4) 0x3ffffff in
  let h0 := add32 h0 (mul32 (u32 (shr d4 26)) 5) in
  let h1 := add32 h1 (shr h0 26) in
  let h0 := Z.land h0 0x3ffffff in
  Limbs h0 h1 h2 h3 h4.

Definition multiply_reduce (k : multiplier) (a : limbs) : limbs :=
  let d0 := column0 a (r0 k) (s4 k) (s3 k) (s2 k) (s1 k) in
  let d1 := column (shr d0 26) a (r1 k) (r0 k) (s4 k) (s3 k) (s2 k) in
  let d2 := column (shr d1 26) a (r2 k) (r1 k) (r0 k) (s4 k) (s3 k) in
  let d3 := column (shr d2 26) a (r3 k) (r2 k) (r1 k) (r0 k) (s4 k) in
  let d4 := column (shr d3 26) a (r4 k) (r3 k) (r2 k) (r1 k) (r0 k) in
  reduce d0 d1 d2 d3 d4.

(** [p] names the product [a * b]; linear arithmetic then sees a variable. *)
Definition product_of (p a b : Z) : Prop := p = a * b.

(** ** Poly1305 on numbers *)

(** The number a byte string spells, least significant byte first. *)
Fixpoint le_num (l : list byte) : Z :=
  match l with
  | [] => 0
  | b :: t => byte_val b + 256 * le_num t
  end.

(** Sixteen bytes read at offset [i]. *)
Definition block_at (msg : list byte) (i : nat) : list byte :=
  firstn 16 (skipn i msg).

(** Horner's rule over [n] blocks of [msg] from offset [i] on: each block
    is read as a number with one more bit set above its sixteen bytes. *)
Fixpoint horner (n : nat) (msg : list byte) (i : nat) (r acc : Z) : Z :=
  match n with
  | O => acc
  | S n' =>
      horner n' msg (i + 16) r
        (((acc + (le_num (block_at msg i) + 2 ^ 128)) * r) mod P1305)
  end.

(** Poly1305 with multiplier [r] and pad [s] as RFC 8439, section 2.5,
    defines it, a function on numbers:
    every whole block and then the rest of the message, closed by a one
    bit, go through Horner's rule modulo p; the pad is added modulo 2^128
    and the sum written on sixteen bytes. *)
Definition poly1305_tag (r s : Z) (msg : list byte) : list byte :=
  let acc := horner (whole msg) msg 0 r 0 in
  let t := tail msg in
  let acc :=
    if 0 <? len t then
      ((acc + (le_num t + 2 ^ (8 * len t))) * r) mod P1305
    else acc in
  le_bytes 16 ((acc + s) mod 2 ^ 128).

(** The mask that the algorithm prescribes for the multiplier, and its
    five 26-bit limbs. *)
Definition clamp (x : Z) : Z := Z.land x 0x0ffffffc0ffffffc0ffffffc0fffffff.

Definition clamp_limbs : limbs :=
  Limbs 0x3ffffff 0x3ffff03 0x3ffc0ff 0x3f03fff 0x00fffff.

(** Poly1305 of a message under a 32-byte key: the first half of the key,
    clamped, is the multiplier and the second half is the pad. *)
Definition poly1305 (key msg : list byte) : list byte :=
  poly1305_tag (clamp (le_num (firstn 16 key))) (le_num (skipn 16 key)) msg.

(** ** Sequences of writes *)

(** The chunk sequences a fresh engine accepts: from buffer offset [o],
    each chunk must find the buffer empty or reach its end. *)
Fixpoint accepts (o : Z) (chunks : list slice) : bool :=
  match chunks with
  | [] => true
  | c :: chunks' =>
      ((o =? 0) || (TagSize - o <=? slen c))
      && accepts ((o + slen c) mod TagSize) chunks'
  end.

(** * Properties *)

(** ** Lists, slices and the monad *)

Lemma len_nonneg (l : list byte) : 0 <= len l.
Proof. unfold len. lia. Qed.

Lemma len_app (a b : list byte) : len (a ++ b) = len a + len b.
Proof. unfold len. rewrite length_app. lia. Qed.

Lemma len_firstn (n : nat) (l : list byte) :
  (n <= length l)%nat -> len (firstn n l) = Z.of_nat n.
Proof. intros H. unfold len. rewrite length_firstn. lia. Qed.

Lemma len_skipn (n : nat) (l : list byte) :
  len (skipn n l) = Z.of_nat (length l - n).
Proof. unfold len. now rewrite length_skipn. Qed.

Lemma at32_in_range (s : list byte) (i : Z) :
  0 <= i < len s -> at32 s i = Ok (get s (Z.to_nat i)).
Proof.
  intros H. unfold at32, get.
  replace (0 <=? i) with true by (symmetry; apply Z.leb_le; lia).
  replace (i <? len s) with true by (symmetry; apply Z.ltb_lt; lia).
  reflexivity.
Qed.

Lemma at32_out_of_range (s : list byte) (i : Z) :
  len s <= i -> at32 s i = Panic index_out_of_range.
Proof.
  intros H. unfold at32.
  replace (i <? len s) with false by (symmetry; apply Z.ltb_ge; lia).
  now rewrite andb_false_r.
Qed.

Lemma get_app_l (a b : list byte) (i : nat) :
  (i < length a)%nat -> get (a ++ b) i = get a i.
Proof. intros H. unfold get. now rewrite app_nth1. Qed.

Lemma get_app_r (a b : list byte) (i : nat) :
  get (a ++ b) (length a + i) = get b i.
Proof.
  unfold get. rewrite app_nth2 by lia. do 2 f_equal. lia.
Qed.

Lemma decode_at_app_l (a b : list byte) (i : nat) (flag : Z) :
  (i + 16 <= length a)%nat -> decode_at (a ++ b) i flag = decode_at a i flag.
Proof.
  intros H. unfold decode_at. now rewrite !get_app_l by lia.
Qed.

Lemma decode_at_app_r (a b : list byte) (i : nat) (flag : Z) :
  decode_at (a ++ b) (length a + i) flag = decode_at b i flag.
Proof.
  unfold decode_at. rewrite <- !Nat.add_assoc. now rewrite !get_app_r.
Qed.

Lemma update_block_in_range (msg : list byte) (i : nat) (flag : Z)
    (k : multiplier) (x : limbs) :
  (i + 16 <= length msg)%nat ->
  update_block msg (Z.of_nat i) flag k x
  = Ok (fold_limbs k x (decode_at msg i flag)).
Proof.
  intros H. unfold update_block, decode_at.
  rewrite (at32_in_range msg (Z.of_nat i)) by (unfold len; lia).
  cbn [rbind].
  repeat (rewrite at32_in_range by (unfold len; lia); cbn [rbind]).
  rewrite Nat2Z.id.
  repeat match goal with
         | |- context [Z.to_nat (Z.of_nat i + ?c)] =>
             replace (Z.to_nat (Z.of_nat i + c)) with (i + Z.to_nat c)%nat by lia
         end.
  reflexivity.
Qed.

Lemma update_loop_blocks (flag : Z) (k : multiplier) (msg : list byte) :
  forall (n turns i : nat) (x : limbs),
    length msg = (i + 16 * n)%nat -> (n <= turns)%nat ->
    update_loop turns msg (Z.of_nat i) flag k x = Ok (fold_blocks n msg i flag k x).
Proof.
  induction n as [|n IH]; intros turns i x Hlen Hturns.
  - destruct turns; cbn [update_loop fold_blocks];
      replace (Z.of_nat i <? len msg) with false
        by (symmetry; apply Z.ltb_ge; unfold len; lia); reflexivity.
  - destruct turns as [|turns]; [lia|].
    cbn [update_loop fold_blocks].
    replace (Z.of_nat i <? len msg) with true
      by (symmetry; apply Z.ltb_lt; unfold len; lia).
    rewrite update_block_in_range by lia. cbn [rbind].
    replace (Z.of_nat i + TagSize) with (Z.of_nat (i + 16))
      by (unfold TagSize; lia).
    apply IH; lia.
Qed.

(** On whole blocks [update] returns, and what it returns. *)
Lemma update_blocks (msg : list byte) (n : nat) (flag : Z) (x k : limbs) :
  length msg = (16 * n)%nat ->
  update msg flag x k = Ok (fold_blocks n msg 0 flag (prepare k) x).
Proof.
  intros H. unfold update.
  apply (update_loop_blocks flag (prepare k) msg n (length msg) 0%nat x); lia.
Qed.

Lemma fold_blocks_app_l (flag : Z) (k : multiplier) (a b : list byte) :
  forall (n i : nat) (x : limbs),
    (i + 16 * n <= length a)%nat ->
    fold_blocks n (a ++ b) i flag k x = fold_blocks n a i flag k x.
Proof.
  induction n as [|n IH]; intros i x H; cbn [fold_blocks]; [reflexivity|].
  rewrite decode_at_app_l by lia. apply IH. lia.
Qed.

Lemma fold_blocks_app_r (flag : Z) (k : multiplier) (a b : list byte) :
  forall (n i : nat) (x : limbs),
    fold_blocks n (a ++ b) (length a + i) flag k x = fold_blocks n b i flag k x.
Proof.
  induction n as [|n IH]; intros i x; cbn [fold_blocks]; [reflexivity|].
  rewrite decode_at_app_r, <- Nat.add_assoc. apply IH.
Qed.

Lemma fold_blocks_add (flag : Z) (k : multiplier) (msg : list byte) :
  forall (n m i : nat) (x : limbs),
    fold_blocks (n + m) msg i flag k x
    = fold_blocks m msg (i + 16 * n) flag k (fold_blocks n msg i flag k x).
Proof.
  induction n as [|n IH]; intros m i x; cbn [fold_blocks Nat.add].
  - f_equal. lia.
  - rewrite IH. f_equal. lia.
Qed.

(** The turn budget that [update] grants is never what stops the loop. *)
Lemma update_loop_budget (flag : Z) (k : multiplier) (msg : list byte) :
  forall (turns : nat) (i : Z) (x : limbs),
    0 <= i -> len msg - i <= Z.of_nat turns ->
    update_loop turns msg i flag k x <> Panic loop_budget_exceeded.
Proof.
  induction turns as [|turns IH]; intros i x Hi Hb; cbn [update_loop].
  - replace (i <? len msg) with false by (symmetry; apply Z.ltb_ge; lia).
    discriminate.
  - destruct (i <? len msg) eqn:E; [|discriminate].
    destruct (update_block msg i flag k x) as [x'|why] eqn:B; cbn [rbind].
    + apply IH; unfold TagSize; lia.
    + unfold update_block in B.
      repeat match type of B with
             | rbind (at32 ?s ?j) _ = _ =>
                 let F := fresh "F" in
                 unfold at32 at 1 in B;
                 destruct ((0 <=? j) && (j <? len s)) eqn:F; cbn [rbind] in B;
                 [|inversion B; discriminate]
             end.
      discriminate.
Qed.

Lemma update_within_budget (msg : list byte) (flag : Z) (x k : limbs) :
  update msg flag x k <> Panic loop_budget_exceeded.
Proof. apply update_loop_budget; unfold len; lia. Qed.

(** [len(msg) & (^(TagSize - 1))] rounds down to a multiple of sixteen. *)
Lemma land_not15 (x : Z) : 0 <= x -> Z.land x (Z.lnot (TagSize - 1)) = 16 * (x / 16).
Proof.
  intros Hx. change (TagSize - 1) with (Z.ones 4).
  rewrite <- Z.ldiff_land, Z.ldiff_ones_r by lia.
  rewrite Z.shiftl_mul_pow2, Z.shiftr_div_pow2 by lia.
  change (2 ^ 4) with 16. lia.
Qed.

Lemma bind_assoc {A B C : Type} (m : method A) (f : A -> method B)
    (g : B -> method C) (p : polyHash) :
  bind (bind m f) g p = bind m (fun a => bind (f a) g) p.
Proof. unfold bind. destruct (m p) as [[a|why] p']; reflexivity. Qed.

Lemma bind_receiver {A : Type} (f : polyHash -> method A) (p : polyHash) :
  bind receiver f p = f p p.
Proof. reflexivity. Qed.

Lemma bind_ext {A B : Type} (m : method A) (f g : A -> method B) (p : polyHash) :
  (forall a p', f a p' = g a p') -> bind m f p = bind m g p.
Proof. intros H. unfold bind. destruct (m p) as [[a|why] p']; auto. Qed.

Lemma bind_ok {A B : Type} (m : method A) (f : A -> method B)
    (p p' : polyHash) (a : A) :
  m p = (Ok a, p') -> bind m f p = f a p'.
Proof. intros H. unfold bind. now rewrite H. Qed.

Lemma bind_panic {A B : Type} (m : method A) (f : A -> method B)
    (p p' : polyHash) (why : string) :
  m p = (Panic why, p') -> bind m f p = (Panic why, p').
Proof. intros H. unfold bind. now rewrite H. Qed.

Lemma Write_split (msg : slice) (p : polyHash) :
  Write msg p
  = (rest <- Write_head msg;; Write_tail rest;; ret (slen msg, None)) p.
Proof.
  unfold Write, Write_head, Write_tail.
  rewrite !bind_assoc, !bind_receiver.
  apply bind_ext. intros rest p'. now rewrite bind_assoc.
Qed.

Lemma slice_to_in_len (s : slice) (hi : Z) :
  0 <= hi <= slen s ->
  slice_to s hi
  = Ok (Slice (firstn (Z.to_nat hi) (elems s))
              (skipn (Z.to_nat hi) (elems s) ++ spare s)).
Proof.
  intros H. unfold slice_to, scap, slen, len in *.
  replace (0 <=? hi) with true by (symmetry; apply Z.leb_le; lia).
  replace (hi <=? _) with true by (symmetry; apply Z.leb_le; lia).
  cbn [andb].
  rewrite firstn_app, skipn_app.
  replace (Z.to_nat hi - length (elems s))%nat with 0%nat by lia.
  cbn [firstn skipn]. now rewrite app_nil_r.
Qed.

Lemma slice_to_beyond_cap (s : slice) (hi : Z) :
  scap s < hi -> slice_to s hi = Panic slice_out_of_range.
Proof.
  intros H. unfold slice_to.
  replace (hi <=? scap s) with false by (symmetry; apply Z.leb_gt; lia).
  now rewrite andb_false_r.
Qed.

Lemma slice_from_in_len (s : slice) (lo : Z) :
  0 <= lo <= slen s ->
  slice_from s lo = Ok (Slice (skipn (Z.to_nat lo) (elems s)) (spare s)).
Proof.
  intros H. unfold slice_from.
  replace (0 <=? lo) with true by (symmetry; apply Z.leb_le; lia).
  replace (lo <=? slen s) with true by (symmetry; apply Z.leb_le; lia).
  reflexivity.
Qed.

Lemma slice_from_beyond_len (s : slice) (lo : Z) :
  slen s < lo -> slice_from s lo = Panic slice_out_of_range.
Proof.
  intros H. unfold slice_from.
  replace (lo <=? slen s) with false by (symmetry; apply Z.leb_gt; lia).
  now rewrite andb_false_r.
Qed.

Lemma fill_in_range (src : list byte) (p : polyHash) :
  0 <= off p <= len (buf p) ->
  fill src p
  = (Ok tt,
     PolyHash (h p) (r p) (pad p)
       (fst (copy_at (buf p) (off p) src))
       (off p + snd (copy_at (buf p) (off p) src))).
Proof.
  intros H. unfold fill. rewrite bind_receiver.
  replace (0 <=? off p) with true by (symmetry; apply Z.leb_le; lia).
  replace (off p <=? len (buf p)) with true by (symmetry; apply Z.leb_le; lia).
  cbn [andb]. destruct (copy_at (buf p) (off p) src) as [b n]. reflexivity.
Qed.

Lemma absorb_blocks (block : list byte) (n : nat) (flag : Z) (p : polyHash) :
  length block = (16 * n)%nat ->
  absorb block flag p
  = (Ok tt, with_h p (fold_blocks n block 0 flag (prepare (r p)) (h p))).
Proof.
  intros H. unfold absorb. rewrite bind_receiver.
  rewrite (update_blocks block n) by exact H. reflexivity.
Qed.

Lemma Write_head_empty (msg : slice) (p : polyHash) :
  off p = 0 -> Write_head msg p = (Ok msg, p).
Proof.
  intros H. unfold Write_head. rewrite bind_receiver, H. reflexivity.
Qed.

Lemma length_tail (m : list byte) : length (tail m) = (length m mod 16)%nat.
Proof.
  unfold tail, whole. rewrite length_skipn.
  pose proof (Nat.div_mod_eq (length m) 16). lia.
Qed.

Lemma length_tail_lt (m : list byte) : (length (tail m) < 16)%nat.
Proof. rewrite length_tail. apply Nat.mod_upper_bound. lia. Qed.

Lemma whole_le (m : list byte) : (16 * whole m <= length m)%nat.
Proof. unfold whole. pose proof (Nat.div_mod_eq (length m) 16). lia. Qed.

Lemma Write_tail_empty (msg : slice) (p : polyHash) :
  length (buf p) = 16%nat -> off p = 0 ->
  Write_tail msg p
  = (Ok tt,
     PolyHash (fold_blocks (whole (elems msg)) (elems msg) 0 msgBlock
                 (prepare (r p)) (h p))
              (r p) (pad p)
              (tail (elems msg) ++ skipn (length (tail (elems msg))) (buf p))
              (len (tail (elems msg)))).
Proof.
  intros Hbuf Hoff. destruct msg as [m sp]. destruct p as [ph pr pp pb po].
  cbn [buf off elems] in *. subst po.
  pose proof (whole_le m) as Hw. pose proof (length_tail_lt m) as Ht.
  unfold Write_tail. change (slen (Slice m sp)) with (len m).
  rewrite land_not15 by apply len_nonneg.
  assert (E : 16 * (len m / 16) = Z.of_nat (16 * whole m)).
  { unfold len, whole. rewrite Nat2Z.inj_mul, Nat2Z.inj_div. reflexivity. }
  rewrite E. clear E.
  assert (Step : forall q : polyHash,
             length (buf q) = 16%nat -> off q = 0 ->
             (if 0 <? slen (Slice (tail m) sp)
              then fill (elems (Slice (tail m) sp)) else ret tt) q
             = (Ok tt, PolyHash (h q) (r q) (pad q)
                         (tail m ++ skipn (length (tail m)) (buf q))
                         (len (tail m)))).
  { intros q Hq Hq0. change (slen (Slice (tail m) sp)) with (len (tail m)).
    cbn [elems].
    destruct (0 <? len (tail m)) eqn:E.
    - rewrite fill_in_range by (rewrite Hq0; unfold len; lia).
      rewrite Hq0. unfold copy_at. cbn [fst snd Z.to_nat firstn app Nat.add].
      rewrite Nat.sub_0_r, Hq, Nat.min_r by lia.
      now rewrite firstn_all.
    - apply Z.ltb_ge in E. unfold len in E.
      destruct (tail m) as [|b t]; [|cbn [length] in E; lia].
      destruct q as [qh qr qp qb qo]. cbn [off] in Hq0. subst qo. reflexivity. }
  destruct (0 <? Z.of_nat (16 * whole m)) eqn:E.
  - rewrite !bind_assoc.
    rewrite slice_to_in_len by (unfold slen, len; cbn [elems]; lia).
    rewrite slice_from_in_len by (unfold slen, len; cbn [elems]; lia).
    rewrite Nat2Z.id.
    erewrite bind_ok by reflexivity. cbn [elems]. rewrite ?bind_assoc.
    erewrite bind_ok by (apply (absorb_blocks _ (whole m)); rewrite length_firstn; lia).
    erewrite bind_ok by reflexivity.
    cbn [spare]. fold (tail m).
    rewrite Step by (cbn [with_h buf off]; auto). cbn [with_h h r pad buf off].
    rewrite <- (fold_blocks_app_l msgBlock (prepare pr)
                  (firstn (16 * whole m) m) (skipn (16 * whole m) m))
      by (rewrite length_firstn; lia).
    now rewrite firstn_skipn.
  - apply Z.ltb_ge in E. assert (W : whole m = 0%nat) by lia.
    erewrite bind_ok by reflexivity.
    assert (T : tail m = m) by (unfold tail; now rewrite W).
    rewrite T in *.
    rewrite Step by (cbn [buf off]; auto). rewrite W. reflexivity.
Qed.

Lemma slice_to_in_cap (s : slice) (hi : Z) :
  0 <= hi <= scap s ->
  slice_to s hi
  = Ok (Slice (firstn (Z.to_nat hi) (elems s ++ spare s))
              (skipn (Z.to_nat hi) (elems s ++ spare s))).
Proof.
  intros H. unfold slice_to.
  replace (0 <=? hi) with true by (symmetry; apply Z.leb_le; lia).
  replace (hi <=? scap s) with true by (symmetry; apply Z.leb_le; lia).
  reflexivity.
Qed.

(** Completing the buffer with [src], which holds at least the missing
    bytes: the buffer becomes its old prefix followed by those bytes. *)
Lemma fill_complete (src : list byte) (p : polyHash) :
  well_formed p -> (16 - Z.to_nat (off p) <= length src)%nat ->
  fill src p
  = (Ok tt,
     PolyHash (h p) (r p) (pad p)
       (firstn (Z.to_nat (off p)) (buf p) ++ firstn (16 - Z.to_nat (off p)) src)
       16).
Proof.
  intros [Hb Ho] Hs.
  rewrite fill_in_range by (unfold len; lia).
  unfold copy_at. cbn [fst snd]. rewrite Hb, Nat.min_l by lia.
  rewrite skipn_all2 by lia. rewrite app_nil_r.
  do 2 f_equal. lia.
Qed.

Lemma length_completed (b src : list byte) (o : nat) :
  length b = 16%nat -> (o <= 16)%nat -> (16 - o <= length src)%nat ->
  length (firstn o b ++ firstn (16 - o) src) = 16%nat.
Proof.
  intros Hb Ho Hs. rewrite length_app, !length_firstn. lia.
Qed.

Lemma Write_head_after_fill (msg : slice) (src : list byte) (p : polyHash)
    (x : result slice) :
  well_formed p -> 0 < off p -> (16 - Z.to_nat (off p) <= length src)%nat ->
  (fill src;;
   p <- receiver;;
   (if off p =? TagSize then
      absorb (buf p) msgBlock;;
      store (fun p => with_off p 0)
    else ret tt);;
   lift x) p
  = (x, completed p src).
Proof.
  intros Hwf Hoff Hsrc. pose proof Hwf as [Hb Ho].
  erewrite bind_ok by (apply fill_complete; assumption).
  rewrite bind_receiver. cbn [off buf]. change (16 =? TagSize) with true.
  cbv iota. rewrite !bind_assoc.
  erewrite bind_ok
    by (apply (absorb_blocks _ 1); cbn [buf]; apply length_completed; lia).
  erewrite bind_ok by reflexivity.
  reflexivity.
Qed.

Lemma Write_head_complete (msg : slice) (p : polyHash) :
  well_formed p -> 0 < off p -> 16 - off p <= slen msg ->
  Write_head msg p
  = (Ok (Slice (skipn (Z.to_nat (16 - off p)) (elems msg)) (spare msg)),
     completed p (elems msg)).
Proof.
  intros Hwf Hoff Hlen. pose proof Hwf as [Hb Ho].
  unfold Write_head. rewrite bind_receiver.
  replace (0 <? off p) with true by (symmetry; apply Z.ltb_lt; lia).
  change (TagSize - off p) with (16 - off p).
  rewrite slice_to_in_len by lia.
  erewrite bind_ok by reflexivity. cbn [elems].
  rewrite slice_from_in_len by lia.
  rewrite Write_head_after_fill
    by (try assumption; rewrite length_firstn; unfold slen, len in Hlen; lia).
  f_equal. unfold completed.
  replace (firstn (16 - Z.to_nat (off p)) (firstn (Z.to_nat (16 - off p)) (elems msg)))
    with (firstn (16 - Z.to_nat (off p)) (elems msg)); [reflexivity|].
  rewrite firstn_firstn. f_equal. lia.
Qed.

(** A chunk too short to complete a partly filled buffer: [Write] panics,
    whatever the capacity of the slice.  When the capacity is too small
    [msg[:diff]] panics, and otherwise [msg[diff:]] does, after the buffer
    was completed with bytes from beyond the end of the slice and folded. *)
Lemma Write_head_short (msg : slice) (p : polyHash) :
  well_formed p -> 0 < off p -> slen msg < 16 - off p ->
  Write_head msg p
  = (Panic slice_out_of_range,
     if scap msg <? 16 - off p then p
     else completed p (elems msg ++ spare msg)).
Proof.
  intros Hwf Hoff Hlen. pose proof Hwf as [Hb Ho].
  unfold Write_head. rewrite bind_receiver.
  replace (0 <? off p) with true by (symmetry; apply Z.ltb_lt; lia).
  change (TagSize - off p) with (16 - off p).
  destruct (scap msg <? 16 - off p) eqn:E.
  - apply Z.ltb_lt in E. rewrite slice_to_beyond_cap by lia. reflexivity.
  - apply Z.ltb_ge in E. rewrite slice_to_in_cap by lia.
    erewrite bind_ok by reflexivity. cbn [elems].
    rewrite slice_from_beyond_len by lia.
    assert (L : (Z.to_nat (16 - off p) <= length (elems msg ++ spare msg))%nat).
    { unfold scap, len in E. rewrite length_app. lia. }
    rewrite Write_head_after_fill
      by (try assumption; rewrite length_firstn; lia).
    f_equal. unfold completed.
    rewrite firstn_firstn.
    replace (Nat.min (16 - Z.to_nat (off p)) (Z.to_nat (16 - off p)))
      with (16 - Z.to_nat (off p))%nat by lia.
    reflexivity.
Qed.

Lemma Write_from_empty (msg : slice) (p : polyHash) :
  length (buf p) = 16%nat -> off p = 0 ->
  Write msg p = (Ok (slen msg, None), buffered p (elems msg)).
Proof.
  intros Hb Ho. rewrite Write_split.
  erewrite bind_ok by (apply Write_head_empty; exact Ho).
  erewrite bind_ok by (apply Write_tail_empty; assumption).
  reflexivity.
Qed.

Lemma well_formed_completed (p : polyHash) (m : list byte) :
  well_formed p -> (16 - Z.to_nat (off p) <= length m)%nat ->
  well_formed (completed p m).
Proof.
  intros [Hb Ho] Hm. split; cbn [completed buf off]; [|lia].
  apply length_completed; lia.
Qed.

Lemma well_formed_buffered (p : polyHash) (m : list byte) :
  length (buf p) = 16%nat -> well_formed (buffered p m).
Proof.
  intros Hb. pose proof (length_tail_lt m) as Ht.
  split; cbn [buffered buf off].
  - rewrite length_app, length_skipn. lia.
  - unfold len. lia.
Qed.

Lemma Write_from_partial (msg : slice) (p : polyHash) :
  well_formed p -> 0 < off p -> 16 - off p <= slen msg ->
  Write msg p
  = (Ok (slen msg, None),
     buffered (completed p (elems msg))
              (skipn (Z.to_nat (16 - off p)) (elems msg))).
Proof.
  intros Hwf Ho Hlen. rewrite Write_split.
  erewrite bind_ok by (apply Write_head_complete; assumption).
  assert (W : well_formed (completed p (elems msg))).
  { apply well_formed_completed; [assumption|].
    destruct Hwf. unfold slen, len in Hlen. lia. }
  erewrite bind_ok by (apply Write_tail_empty; [apply W | reflexivity]).
  reflexivity.
Qed.

Lemma Write_short (msg : slice) (p : polyHash) :
  well_formed p -> 0 < off p -> slen msg < 16 - off p ->
  Write msg p
  = (Panic slice_out_of_range,
     if scap msg <? 16 - off p then p
     else completed p (elems msg ++ spare msg)).
Proof.
  intros Hwf Ho Hlen. rewrite Write_split.
  erewrite bind_panic by (apply Write_head_short; assumption).
  reflexivity.
Qed.

(** [Write] keeps the engine well formed, also when it panics. *)
Lemma Write_well_formed (msg : slice) (p : polyHash) :
  well_formed p -> well_formed (snd (Write msg p)).
Proof.
  intros Hwf. pose proof Hwf as [Hb Ho].
  destruct (Z.eq_dec (off p) 0) as [E|E].
  - rewrite Write_from_empty by assumption. now apply well_formed_buffered.
  - destruct (Z_lt_le_dec (slen msg) (16 - off p)) as [L|L].
    + rewrite Write_short by (try assumption; lia). cbn [snd].
      destruct (scap msg <? 16 - off p) eqn:C; [assumption|].
      apply Z.ltb_ge in C. apply well_formed_completed; [assumption|].
      unfold scap, len in C. rewrite length_app. lia.
    + rewrite Write_from_partial by (try assumption; lia). cbn [snd].
      apply well_formed_buffered. cbn [completed buf].
      apply length_completed; unfold slen, len in L; lia.
Qed.

(** [Write] never touches the key material. *)
Lemma Write_key (msg : slice) (p : polyHash) :
  well_formed p ->
  r (snd (Write msg p)) = r p /\ pad (snd (Write msg p)) = pad p.
Proof.
  intros Hwf. pose proof Hwf as [Hb Ho].
  destruct (Z.eq_dec (off p) 0) as [E|E].
  - rewrite Write_from_empty by assumption. now split.
  - destruct (Z_lt_le_dec (slen msg) (16 - off p)) as [L|L].
    + rewrite Write_short by (try assumption; lia). cbn [snd].
      destruct (scap msg <? 16 - off p); now split.
    + rewrite Write_from_partial by (try assumption; lia). now split.
Qed.

Lemma New_32 (key : list byte) : len key = 32 -> New key = inl (fresh key).
Proof.
  intros H. unfold New. rewrite H. cbn [Z.eqb Pos.eqb negb].
  assert (K : fst (copy_at (repeat x00 32) 0 key) = key).
  { unfold copy_at. cbn [fst Z.to_nat firstn app Nat.add].
    rewrite repeat_length, Nat.sub_0_r.
    assert (L : length key = 32%nat) by (unfold len in H; lia).
    rewrite L. cbn [Nat.min]. rewrite <- L at 1. rewrite firstn_all.
    rewrite skipn_all2 by (rewrite repeat_length; lia).
    apply app_nil_r. }
  rewrite K. unfold fresh. destruct (initialize key). reflexivity.
Qed.

Lemma New_not_32 (key : list byte) :
  len key <> 32 -> New key = inr (KeySizeError (len key)).
Proof.
  intros H. unfold New.
  replace (len key =? 32) with false by (symmetry; apply Z.eqb_neq; exact H).
  reflexivity.
Qed.

Lemma well_formed_fresh (key : list byte) : well_formed (fresh key).
Proof. split; cbn; [reflexivity | lia]. Qed.

Lemma reachable_well_formed (p : polyHash) : reachable p -> well_formed p.
Proof.
  induction 1 as [key p HN | msg p _ IH].
  - destruct (Z.eq_dec (len key) 32) as [E|E].
    + rewrite New_32 in HN by exact E. inversion HN. apply well_formed_fresh.
    + rewrite New_not_32 in HN by exact E. discriminate.
  - now apply Write_well_formed.
Qed.

(** ** The padded final block *)

Lemma zero_fill_from :
  forall (turns : nat) (i : nat) (c : list byte),
    length c = 16%nat -> (i <= 16)%nat -> (16 - i <= turns)%nat ->
    zero_fill turns c (Z.of_nat i) = firstn i c ++ repeat x00 (16 - i).
Proof.
  induction turns as [|turns IH]; intros i c Hc Hi Ht.
  - cbn [zero_fill]. replace i with 16%nat in * by lia.
    cbn [Nat.sub repeat]. rewrite app_nil_r.
    rewrite <- Hc. now rewrite firstn_all.
  - cbn [zero_fill]. unfold TagSize.
    destruct (Z.of_nat i <? 16) eqn:E.
    + apply Z.ltb_lt in E.
      replace (Z.of_nat i + 1) with (Z.of_nat (S i)) by lia.
      assert (Hset : set_at c (Z.of_nat i) x00 = firstn i c ++ x00 :: skipn (S i) c).
      { unfold set_at. now rewrite Nat2Z.id. }
      assert (Li : length (firstn i c) = i) by (rewrite length_firstn; lia).
      rewrite IH.
      * rewrite Hset, firstn_app, Li.
        replace (S i - i)%nat with 1%nat by lia.
        rewrite firstn_all2 by lia. cbn [firstn].
        replace (16 - i)%nat with (S (16 - S i)) by lia.
        cbn [repeat]. now rewrite <- app_assoc.
      * rewrite Hset, length_app, Li. cbn [length].
        rewrite length_skipn. lia.
      * lia.
      * lia.
    + apply Z.ltb_ge in E. replace i with 16%nat in * by lia.
      cbn [Nat.sub repeat]. rewrite app_nil_r.
      rewrite <- Hc. now rewrite firstn_all.
Qed.

Lemma length_padded (p : polyHash) : well_formed p -> length (padded p) = 16%nat.
Proof.
  intros [Hb Ho]. unfold padded.
  rewrite length_app, length_firstn. cbn [length]. rewrite repeat_length. lia.
Qed.

Lemma Sum_on_copy_value (p : polyHash) :
  well_formed p -> fst (Sum_on_copy p) = Ok (finish (final_h p) (pad p)).
Proof.
  intros Hwf. pose proof Hwf as [Hb Ho].
  unfold Sum_on_copy, final_h. rewrite bind_receiver.
  destruct (0 <? off p) eqn:E.
  - apply Z.ltb_lt in E.
    replace (off p <? len (buf p)) with true
      by (symmetry; apply Z.ltb_lt; unfold len; lia).
    rewrite !bind_assoc.
    erewrite bind_ok by reflexivity.
    rewrite !bind_assoc.
    erewrite bind_ok by reflexivity.
    rewrite bind_assoc, bind_receiver.
    cbn [with_buf buf off h r pad].
    assert (P : zero_fill (Z.to_nat TagSize) (set_at (buf p) (off p) x01) (off p + 1)
                = padded p).
    { replace (off p + 1) with (Z.of_nat (S (Z.to_nat (off p)))) by lia.
      assert (Lf : length (firstn (Z.to_nat (off p)) (buf p)) = Z.to_nat (off p))
        by (rewrite length_firstn; lia).
      rewrite zero_fill_from.
      - unfold set_at, padded. rewrite firstn_app, Lf.
        replace (S (Z.to_nat (off p)) - Z.to_nat (off p))%nat with 1%nat by lia.
        rewrite firstn_all2 by lia. cbn [firstn].
        rewrite <- app_assoc. cbn [app].
        replace (16 - S (Z.to_nat (off p)))%nat with (15 - Z.to_nat (off p))%nat
          by lia.
        reflexivity.
      - unfold set_at. rewrite length_app, Lf. cbn [length].
        rewrite length_skipn. lia.
      - lia.
      - unfold TagSize. lia. }
    rewrite P.
    erewrite bind_ok
      by (apply (absorb_blocks _ 1); apply length_padded; exact Hwf).
    rewrite bind_receiver. reflexivity.
  - erewrite bind_ok by reflexivity. rewrite bind_receiver. reflexivity.
Qed.

Lemma Sum_value (b : slice) (p : polyHash) :
  well_formed p ->
  Sum b p = (Ok (elems b ++ finish (final_h p) (pad p)), p).
Proof.
  intros Hwf. unfold Sum.
  pose proof (Sum_on_copy_value p Hwf) as H.
  destruct (Sum_on_copy p) as [[mac|why] p0]; cbn [fst] in H.
  - now inversion H.
  - discriminate.
Qed.

(** ** What an engine has consumed *)

Lemma whole_app (a b : list byte) (n : nat) :
  length a = (16 * n)%nat -> whole (a ++ b) = (n + whole b)%nat.
Proof.
  intros H. unfold whole. rewrite length_app, H.
  rewrite (Nat.mul_comm 16 n), Nat.div_add_l by lia. reflexivity.
Qed.

Lemma tail_app (a b : list byte) (n : nat) :
  length a = (16 * n)%nat -> tail (a ++ b) = tail b.
Proof.
  intros H. unfold tail. rewrite (whole_app a b n H).
  rewrite skipn_app.
  rewrite skipn_all2 by lia.
  replace (16 * (n + whole b) - length a)%nat with (16 * whole b)%nat by lia.
  reflexivity.
Qed.

Lemma whole_tail (m : list byte) : firstn (16 * whole m) m ++ tail m = m.
Proof. apply firstn_skipn. Qed.

Lemma length_whole (m : list byte) :
  length (firstn (16 * whole m) m) = (16 * whole m)%nat.
Proof. rewrite length_firstn. pose proof (whole_le m). lia. Qed.

Lemma absorbed_app (k : multiplier) (a b : list byte) (n : nat) (x : limbs) :
  length a = (16 * n)%nat ->
  absorbed k (a ++ b) x = absorbed k b (fold_blocks n a 0 msgBlock k x).
Proof.
  intros H. unfold absorbed. rewrite (whole_app a b n H).
  rewrite fold_blocks_add.
  rewrite (fold_blocks_app_l msgBlock k a b n 0) by lia.
  cbn [Nat.add]. rewrite <- H.
  rewrite <- (Nat.add_0_r (length a)). apply fold_blocks_app_r.
Qed.

Lemma holds_well_formed (key m : list byte) (p : polyHash) :
  holds key m p -> well_formed p.
Proof.
  intros (_ & _ & Hb & _ & Ho & _). pose proof (length_tail_lt m).
  split; [assumption | unfold len in Ho; lia].
Qed.

Lemma holds_fresh (key : list byte) : holds key [] (fresh key).
Proof. repeat split. Qed.

Lemma holds_buffered (key m c : list byte) (p : polyHash) (n : nat) :
  length m = (16 * n)%nat ->
  r p = fst (initialize key) -> pad p = snd (initialize key) ->
  length (buf p) = 16%nat ->
  h p = fold_blocks n m 0 msgBlock (prepare (r p)) zero_limbs ->
  holds key (m ++ c) (buffered p c).
Proof.
  intros Hm Hr Hp Hb Hh. pose proof (length_tail_lt c) as Ht.
  unfold holds, buffered. cbn [h r pad buf off].
  rewrite (tail_app m c n Hm), (absorbed_app _ m c n _ Hm), <- Hh.
  repeat split; try assumption.
  - rewrite length_app, length_skipn. lia.
  - rewrite firstn_app, Nat.sub_diag, firstn_all. cbn [firstn].
    apply app_nil_r.
Qed.

Lemma holds_Write (key m : list byte) (msg : slice) (p p' : polyHash)
    (v : Z * option error) :
  holds key m p -> Write msg p = (Ok v, p') ->
  holds key (m ++ elems msg) p'.
Proof.
  intros H HW. pose proof (holds_well_formed _ _ _ H) as Hwf.
  destruct H as (Hr & Hp & Hb & Hh & Ho & Hpre).
  pose proof (length_tail m) as Lt. pose proof (whole_le m) as Lw.
  destruct (Z.eq_dec (off p) 0) as [E|E].
  - rewrite Write_from_empty in HW by assumption.
    assert (Hp' : p' = buffered p (elems msg)) by congruence.
    subst p'. clear HW.
    apply (holds_buffered key m (elems msg) p (whole m)); try assumption.
    rewrite E in Ho. unfold len in Ho.
    pose proof (Nat.div_mod_eq (length m) 16). unfold whole. lia.
  - destruct Hwf as [_ Hoff].
    destruct (Z_lt_le_dec (slen msg) (16 - off p)) as [L|L].
    + rewrite Write_short in HW by (try split; try assumption; lia).
      discriminate.
    + rewrite Write_from_partial in HW by (try split; try assumption; lia).
      assert (Hp' : p' = buffered (completed p (elems msg))
                           (skipn (Z.to_nat (16 - off p)) (elems msg)))
        by congruence.
      subst p'. clear HW.
      set (c := elems msg) in *.
      assert (Lo : Z.to_nat (off p) = length (tail m)) by (unfold len in Ho; lia).
      assert (Lc : (16 - length (tail m) <= length c)%nat)
        by (unfold slen, len in L; fold c in L; lia).
      set (blk := tail m ++ firstn (16 - length (tail m)) c).
      assert (Lblk : length blk = 16%nat).
      { unfold blk. rewrite length_app, length_firstn. lia. }
      assert (Hcompleted :
                completed p c
                = PolyHash (fold_limbs (prepare (r p)) (h p) (decode_at blk 0 msgBlock))
                           (r p) (pad p) blk 0).
      { unfold completed. rewrite Lo, Hpre. reflexivity. }
      rewrite Hcompleted.
      replace (Z.to_nat (16 - off p)) with (16 - length (tail m))%nat by lia.
      assert (Split : m ++ c
                      = (firstn (16 * whole m) m ++ blk)
                        ++ skipn (16 - length (tail m)) c).
      { unfold blk. rewrite <- !app_assoc, (app_assoc _ (tail m)), whole_tail.
        now rewrite firstn_skipn. }
      rewrite Split.
      apply (holds_buffered key _ _ _ (whole m + 1)); cbn [h r pad buf];
        try assumption.
      * rewrite length_app, length_whole, Lblk. lia.
      * rewrite fold_blocks_add. cbn [fold_blocks Nat.add].
        rewrite fold_blocks_app_l by (rewrite length_whole; lia).
        replace (decode_at (firstn (16 * whole m) m ++ blk) (16 * whole m) msgBlock)
          with (decode_at blk 0 msgBlock).
        2:{ rewrite <- (decode_at_app_r (firstn (16 * whole m) m) blk 0).
            now rewrite length_whole, Nat.add_0_r. }
        rewrite Hh. unfold absorbed.
        rewrite <- (fold_blocks_app_l msgBlock (prepare (r p))
                      (firstn (16 * whole m) m) (tail m) (whole m) 0)
          by (rewrite length_whole; lia).
        now rewrite whole_tail.
Qed.

Lemma holds_Sum (key m : list byte) (b : slice) (p : polyHash) :
  holds key m p -> Sum b p = (Ok (elems b ++ mac key m), p).
Proof.
  intros H. rewrite Sum_value by (eapply holds_well_formed; exact H).
  destruct H as (Hr & Hp & Hb & Hh & Ho & Hpre).
  unfold mac, final_h, padded.
  rewrite Ho, Hh, Hr, Hp.
  replace (Z.to_nat (len (tail m))) with (length (tail m)) by (unfold len; lia).
  now rewrite Hpre.
Qed.

Lemma holds_Writes (key : list byte) (chunks : list slice) :
  forall (m : list byte) (p p' : polyHash),
    holds key m p -> Writes chunks p = (Ok tt, p') ->
    holds key (m ++ concat (map elems chunks)) p'.
Proof.
  induction chunks as [|c chunks IH]; intros m p p' H HW; cbn [Writes] in HW.
  - inversion HW; subst p'. cbn [map concat]. now rewrite app_nil_r.
  - unfold bind in HW.
    destruct (Write c p) as [[v|why] p1] eqn:E; [|discriminate].
    cbn [map concat]. rewrite app_assoc.
    eapply IH; [|exact HW]. eapply holds_Write; eassumption.
Qed.

Lemma New_inl (key : list byte) (p : polyHash) :
  New key = inl p -> len key = 32 /\ p = fresh key.
Proof.
  intros H. destruct (Z.eq_dec (len key) 32) as [E|E].
  - rewrite New_32 in H by exact E. split; [exact E | congruence].
  - rewrite New_not_32 in H by exact E. discriminate.
Qed.

(** Chunking invariance for the partitions the engine accepts: when every
    [Write] of the sequence returns, [Sum] yields the tag of the
    concatenation, which is also what a single [Write] of the whole
    message followed by [Sum] yields. *)
Theorem chunking_invariance_when_writes_return
    (key : list byte) (chunks : list slice) (b : slice) (p p' : polyHash) :
  New key = inl p ->
  Writes chunks p = (Ok tt, p') ->
  fst ((Writes chunks;; Sum b) p)
  = Ok (elems b ++ mac key (concat (map elems chunks)))
  /\ fst ((Write (of_bytes (concat (map elems chunks)));; Sum b) p)
     = Ok (elems b ++ mac key (concat (map elems chunks))).
Proof.
  intros HN HW. apply New_inl in HN as [Hk ->]. split.
  - erewrite bind_ok by exact HW.
    erewrite holds_Sum; [reflexivity|].
    apply (holds_Writes key chunks [] (fresh key) p' (holds_fresh key) HW).
  - erewrite bind_ok
      by (apply Write_from_empty; reflexivity).
    erewrite holds_Sum; [reflexivity|].
    apply (holds_Write key [] (of_bytes (concat (map elems chunks))) (fresh key) _
             (slen (of_bytes (concat (map elems chunks))), None)
             (holds_fresh key)).
    apply Write_from_empty; reflexivity.
Qed.

Lemma chunking_invariance_when_writes_return_witness :
  exists tag,
    fst ((Writes [of_bytes [x01; x02]; of_bytes (repeat x03 14); of_bytes [x04]];;
          Sum (of_bytes [])) (fresh (repeat x00 32))) = Ok tag
    /\ fst ((Write (of_bytes ([x01; x02] ++ repeat x03 14 ++ [x04]));;
             Sum (of_bytes [])) (fresh (repeat x00 32))) = Ok tag.
Proof.
  eexists.
  refine (chunking_invariance_when_writes_return (repeat x00 32)
            [of_bytes [x01; x02]; of_bytes (repeat x03 14); of_bytes [x04]]
            (of_bytes []) _ _ _ _).
  - vm_compute. reflexivity.
  - vm_compute. reflexivity.
Defined.

(** ** Construction, reset, and the frame of [Sum] *)

(** C5. [New] accepts exactly the keys of 32 bytes: for any other length,
    0, 31, 33 and 64 among them, it returns no engine and the error
    [KeySizeError] carrying that length; for a key of 32 bytes it returns
    the freshly keyed engine. *)
Theorem New_enforces_key_size (key : list byte) :
  New key = if len key =? 32 then inl (fresh key)
            else inr (KeySizeError (len key)).
Proof.
  destruct (len key =? 32) eqn:E.
  - apply New_32. now apply Z.eqb_eq.
  - apply New_not_32. now apply Z.eqb_neq.
Qed.

(** C8. On every engine [Reset] panics: it never returns, and it re-keys
    nothing, the receiver is left as it was. *)
Theorem Reset_panics (p : polyHash) :
  Reset p
  = (Panic "poly1305 does not support Reset() - poly1305 is insecure if one key is used twice!"%string,
     p).
Proof. reflexivity. Qed.

(** C10. [Sum] works on a copy: on every reachable engine it returns the
    tag and leaves the receiver, that is its accumulator, [r], [pad], buffer
    and offset, unchanged; so a second [Sum] with the same argument returns
    what the first returned, and a [Write] after a [Sum] behaves as the same
    [Write] without it. *)
Theorem Sum_leaves_receiver (b : slice) (p : polyHash) :
  reachable p ->
  Sum b p = (Ok (elems b ++ finish (final_h p) (pad p)), p)
  /\ (t1 <- Sum b;; t2 <- Sum b;; ret (t1, t2)) p
     = (Ok (elems b ++ finish (final_h p) (pad p),
            elems b ++ finish (final_h p) (pad p)), p)
  /\ forall msg : slice, (Sum b;; Write msg) p = Write msg p.
Proof.
  intros Hp. apply reachable_well_formed in Hp.
  pose proof (Sum_value b p Hp) as E.
  split; [exact E|]. split.
  - erewrite bind_ok by exact E. erewrite bind_ok by exact E. reflexivity.
  - intros msg. erewrite bind_ok by exact E. reflexivity.
Qed.

Lemma Sum_leaves_receiver_witness :
  let p := snd (Write (of_bytes [x01; x02; x03]) (fresh (repeat x00 32))) in
  reachable p
  /\ snd (Sum (of_bytes []) p) = p
  /\ (Sum (of_bytes []);; Write (of_bytes (repeat x04 13))) p
     = Write (of_bytes (repeat x04 13)) p.
Proof.
  intros p.
  assert (R : reachable p).
  { apply reachable_Write, (reachable_New (repeat x00 32)). reflexivity. }
  split; [exact R|].
  destruct (Sum_leaves_receiver (of_bytes []) p R) as (E & _ & W).
  split; [now rewrite E | apply W].
Defined.

(** ** The streaming buffer *)

(** C7. On every engine reachable from [New] by [Write] calls the offset
    lies in [0, 16).  When the buffer is partly filled and the incoming
    bytes reach its end, [Write] completes the buffer to 16 bytes, folds it
    into the accumulator as a full block, resets the offset to 0, and goes
    on with the remaining input from that emptied state. *)
Theorem offset_stays_below_TagSize (p : polyHash) :
  reachable p ->
  0 <= off p < TagSize
  /\ forall msg : slice,
      0 < off p -> TagSize - off p <= slen msg ->
      let full := firstn (Z.to_nat (off p)) (buf p)
                  ++ firstn (Z.to_nat (TagSize - off p)) (elems msg) in
      let rest := Slice (skipn (Z.to_nat (TagSize - off p)) (elems msg)) (spare msg) in
      exists x,
        len full = TagSize
        /\ update full msgBlock (h p) (r p) = Ok x
        /\ Write msg p
           = (Ok (slen msg, None),
              snd (Write rest (PolyHash x (r p) (pad p) full 0)))
        /\ 0 <= off (snd (Write msg p)) < TagSize.
Proof.
  intros Hp. apply reachable_well_formed in Hp. pose proof Hp as [Hb Ho].
  split; [exact Ho|]. intros msg Hoff Hlen full rest.
  unfold TagSize in *.
  assert (Lm : (16 - Z.to_nat (off p) <= length (elems msg))%nat)
    by (unfold slen, len in Hlen; lia).
  assert (Lfull : length full = 16%nat).
  { unfold full. replace (Z.to_nat (16 - off p)) with (16 - Z.to_nat (off p))%nat by lia.
    apply length_completed; lia. }
  exists (fold_limbs (prepare (r p)) (h p) (decode_at full 0 msgBlock)).
  split; [unfold len; lia|]. split; [apply (update_blocks full 1); exact Lfull|].
  assert (C : completed p (elems msg)
              = PolyHash (fold_limbs (prepare (r p)) (h p) (decode_at full 0 msgBlock))
                         (r p) (pad p) full 0).
  { unfold completed, full.
    now replace (Z.to_nat (16 - off p)) with (16 - Z.to_nat (off p))%nat by lia. }
  rewrite <- C.
  rewrite (Write_from_empty rest)
    by (rewrite C; cbn [buf off]; auto).
  rewrite Write_from_partial by assumption. cbn [snd elems rest].
  split; [reflexivity|].
  apply well_formed_buffered. rewrite C. exact Lfull.
Qed.

Lemma offset_stays_below_TagSize_witness :
  let p := snd (Write (of_bytes [x01; x02; x03]) (fresh (repeat x00 32))) in
  reachable p
  /\ 0 <= off p < TagSize
  /\ off (snd (Write (of_bytes (repeat x04 13)) p)) = 0.
Proof.
  intros p.
  assert (R : reachable p).
  { apply reachable_Write, (reachable_New (repeat x00 32)). reflexivity. }
  split; [exact R|].
  destruct (offset_stays_below_TagSize p R) as [I F].
  split; [exact I|].
  assert (H1 : 0 < off p) by (vm_compute; reflexivity).
  assert (H2 : TagSize - off p <= slen (of_bytes (repeat x04 13)))
    by (vm_compute; discriminate).
  pose proof (F (of_bytes (repeat x04 13)) H1 H2) as G. cbv zeta in G.
  destruct G as (x & _ & _ & E & _).
  rewrite E. reflexivity.
Defined.

(** C2, at an input where the code departs from it.  After a one-byte
    [Write] the buffer holds one byte; a second [Write] of one byte, or of
    no byte at all, then panics on its slice expressions, whatever spare
    capacity the slice has: [msg[:diff]] is out of bounds when the capacity
    is below [diff = 15], and [msg[diff:]] is otherwise. *)
Theorem Write_of_short_chunk_panics (sp : list byte) :
  exists p,
    New (repeat x00 32) = inl p
    /\ fst ((Write (of_bytes [x01]);; Write (Slice [x02] sp)) p)
       = Panic slice_out_of_range
    /\ fst ((Write (of_bytes [x01]);; Write (Slice [] sp)) p)
       = Panic slice_out_of_range.
Proof.
  exists (fresh (repeat x00 32)). split; [reflexivity|].
  split.
  - erewrite bind_ok by (apply Write_from_empty; reflexivity).
    rewrite Write_short; [reflexivity| | |].
    + apply well_formed_buffered. reflexivity.
    + reflexivity.
    + reflexivity.
  - erewrite bind_ok by (apply Write_from_empty; reflexivity).
    rewrite Write_short; [reflexivity| | |].
    + apply well_formed_buffered. reflexivity.
    + reflexivity.
    + reflexivity.
Qed.

(** C1, at an input where the code departs from it.  The message of two
    bytes fed in one [Write] yields a tag; the same message fed as two
    chunks of one byte yields none, since the second [Write] panics. *)
Theorem chunked_Write_panics_where_single_Write_returns :
  exists p tag,
    New (repeat x00 32) = inl p
    /\ fst ((Write (of_bytes [x01; x02]);; Sum (of_bytes [])) p) = Ok tag
    /\ forall sp1 sp2 : list byte,
        fst ((Writes [Slice [x01] sp1; Slice [x02] sp2];; Sum (of_bytes [])) p)
        = Panic slice_out_of_range.
Proof.
  exists (fresh (repeat x00 32)).
  eexists. split; [reflexivity|]. split.
  - vm_compute. reflexivity.
  - intros sp1 sp2. cbn [Writes]. rewrite !bind_assoc.
    erewrite bind_ok by (apply Write_from_empty; reflexivity).
    rewrite bind_assoc.
    erewrite bind_panic; [reflexivity|].
    rewrite Write_short; [reflexivity| | |].
    + apply well_formed_buffered. reflexivity.
    + reflexivity.
    + reflexivity.
Qed.

Lemma finish_stages (x : limbs) (pad : words) :
  finish x pad = encode (add_pad (pack (select (full_carry x))) pad).
Proof.
  unfold finish, encode, add_pad, pack, select, full_carry.
  cbv beta zeta iota delta [l0 l1 l2 l3 l4 w0 w1 w2 w3].
  reflexivity.
Qed.

Lemma u32_small (x : Z) : 0 <= x < 2 ^ 32 -> u32 x = x.
Proof. intros H. unfold u32. now apply Z.mod_small. Qed.

Lemma u64_small (x : Z) : 0 <= x < 2 ^ 64 -> u64 x = x.
Proof. intros H. unfold u64. now apply Z.mod_small. Qed.

Lemma land_mask26 (x : Z) : Z.land x 0x3ffffff = x mod 2 ^ 26.
Proof. change 0x3ffffff with (Z.ones 26). apply Z.land_ones. lia. Qed.

Lemma shr_div (x k : Z) : 0 <= k -> shr x k = x / 2 ^ k.
Proof. intros H. unfold shr. now apply Z.shiftr_div_pow2. Qed.

Lemma land_disjoint (a b k : Z) :
  0 <= a < 2 ^ k -> 0 <= k -> Z.land a (b * 2 ^ k) = 0.
Proof.
  intros Ha Hk. apply Z.bits_inj'. intros n Hn.
  rewrite Z.land_spec, Z.bits_0.
  destruct (Z_lt_le_dec n k) as [L|L].
  - rewrite Z.mul_pow2_bits_low by lia. apply andb_false_r.
  - rewrite <- (Z.mod_small a (2 ^ k)) by lia.
    rewrite Z.mod_pow2_bits_high by lia. reflexivity.
Qed.

Lemma lor_disjoint_add (a b k : Z) :
  0 <= a < 2 ^ k -> 0 <= k -> Z.lor a (b * 2 ^ k) = a + b * 2 ^ k.
Proof.
  intros Ha Hk. pose proof (land_disjoint a b k Ha Hk) as D.
  rewrite <- Z.lxor_lor by exact D. symmetry.
  now apply Z.add_nocarry_lxor.
Qed.

Lemma shl32_split (x k : Z) :
  0 <= k <= 32 -> shl32 x k = (x mod 2 ^ (32 - k)) * 2 ^ k.
Proof.
  intros Hk. unfold shl32, u32. rewrite Z.shiftl_mul_pow2 by lia.
  replace (2 ^ 32) with (2 ^ (32 - k) * 2 ^ k)
    by (rewrite <- Z.pow_add_r by lia; f_equal; lia).
  apply Z.mul_mod_distr_r; apply Z.pow_nonzero; lia.
Qed.

Lemma div26_bit (a : Z) : 0 <= a < 2 * 2 ^ 26 -> 0 <= a / 2 ^ 26 <= 1.
Proof.
  intros H. split; [apply Z.div_pos; lia|].
  apply Z.lt_succ_r, Z.div_lt_upper_bound; lia.
Qed.

Lemma land_ones32 (a : Z) : 0 <= a < 2 ^ 32 -> Z.land a 4294967295 = a.
Proof.
  intros H. change 4294967295 with (Z.ones 32).
  rewrite Z.land_ones by lia. now apply Z.mod_small.
Qed.

(** Quotients and remainders by [2 ^ k] become variables, constrained by
    the facts that [split_at] has recorded, and the rest is linear. *)
Ltac name_quotients k :=
  repeat match goal with
         | H : context [?a / 2 ^ k] |- _ =>
             let q := fresh "q" in set (q := a / 2 ^ k) in *; clearbody q
         | H : context [?a mod 2 ^ k] |- _ =>
             let m := fresh "m" in set (m := a mod 2 ^ k) in *; clearbody m
         | |- context [?a / 2 ^ k] =>
             let q := fresh "q" in set (q := a / 2 ^ k) in *; clearbody q
         | |- context [?a mod 2 ^ k] =>
             let m := fresh "m" in set (m := a mod 2 ^ k) in *; clearbody m
         end.

Ltac split_at a k :=
  let E := fresh "E" in
  let M := fresh "M" in
  pose proof (Z.div_mod a (2 ^ k) ltac:(lia)) as E;
  pose proof (Z.mod_pos_bound a (2 ^ k) ltac:(lia)) as M.

Ltac limb_arith :=
  unfold P1305; name_quotients 26;
  change (2 ^ 26) with 67108864 in *; change (2 ^ 6) with 64 in *;
  change (2 ^ 52) with 4503599627370496;
  change (2 ^ 78) with 302231454903657293676544;
  change (2 ^ 104) with 20282409603651670423947251286016;
  change (2 ^ 130) with 1361129467683753853853498429727072845824;
  lia.

(** Stage 1: the carry chain leaves canonical limbs for the same residue. *)
Lemma full_carry_spec (x : limbs) :
  carried x ->
  canonical (full_carry x)
  /\ (value (full_carry x) = value x \/ value (full_carry x) = value x - P1305).
Proof.
  intros (H0 & H1 & H2 & H3 & H4).
  destruct x as [a0 a1 a2 a3 a4]. cbn [l0 l1 l2 l3 l4] in *.
  unfold full_carry, canonical, value. cbn [l0 l1 l2 l3 l4].
  rewrite !land_mask26. unfold add32, mul32. rewrite !shr_div by lia.
  pose proof (div26_bit a1 ltac:(lia)) as C1.
  rewrite (u32_small (a2 + _)) by lia.
  set (b2 := a2 + a1 / 2 ^ 26) in *.
  pose proof (div26_bit b2 ltac:(lia)) as C2.
  rewrite (u32_small (a3 + _)) by lia.
  set (b3 := a3 + b2 / 2 ^ 26) in *.
  pose proof (div26_bit b3 ltac:(lia)) as C3.
  rewrite (u32_small (a4 + _)) by lia.
  set (b4 := a4 + b3 / 2 ^ 26) in *.
  pose proof (div26_bit b4 ltac:(lia)) as C4.
  rewrite (u32_small (5 * _)) by lia.
  rewrite (u32_small (a0 + _)) by lia.
  set (b0 := a0 + 5 * (b4 / 2 ^ 26)) in *.
  pose proof (div26_bit b0 ltac:(lia)) as C0.
  pose proof (Z.mod_pos_bound a1 (2 ^ 26) ltac:(lia)) as M1.
  rewrite (u32_small (a1 mod _ + _)) by lia.
  split_at a1 26. split_at b2 26. split_at b3 26. split_at b4 26. split_at b0 26.
  subst b0 b2 b3 b4. limb_arith.
Qed.

(** Stage 2: the masked selection subtracts the modulus exactly when the
    carried value has reached it. *)
Lemma select_spec (x : limbs) :
  canonical x ->
  canonical (select x) /\ value (select x) = value x mod P1305.
Proof.
  intros (H0 & H1 & H2 & H3 & H4).
  destruct x as [a0 a1 a2 a3 a4]. cbn [l0 l1 l2 l3 l4] in *.
  unfold select, canonical, value. cbn [l0 l1 l2 l3 l4].
  rewrite !land_mask26. unfold add32. rewrite !(shr_div _ 26) by lia.
  rewrite (u32_small (a0 + 5)) by lia.
  set (b0 := a0 + 5) in *.
  pose proof (div26_bit b0 ltac:(lia)) as C0.
  rewrite (u32_small (a1 + _)) by lia.
  set (b1 := a1 + b0 / 2 ^ 26) in *.
  pose proof (div26_bit b1 ltac:(lia)) as C1.
  rewrite (u32_small (a2 + _)) by lia.
  set (b2 := a2 + b1 / 2 ^ 26) in *.
  pose proof (div26_bit b2 ltac:(lia)) as C2.
  rewrite (u32_small (a3 + _)) by lia.
  set (b3 := a3 + b2 / 2 ^ 26) in *.
  pose proof (div26_bit b3 ltac:(lia)) as C3.
  rewrite (u32_small (a4 + _)) by lia.
  set (t := a4 + b3 / 2 ^ 26) in *.
  split_at b0 26. split_at b1 26. split_at b2 26. split_at b3 26.
  change (Z.shiftl 1 26) with (2 ^ 26).
  destruct (Z_lt_le_dec t (2 ^ 26)) as [L|L].
  - (* below the modulus: the difference is negative, h is kept *)
    assert (G : sub32 t (2 ^ 26) = t - 2 ^ 26 + 2 ^ 32).
    { unfold sub32, u32. rewrite <- (Z_mod_plus_full _ 1).
      apply Z.mod_small. lia. }
    rewrite G.
    assert (S : shr (t - 2 ^ 26 + 2 ^ 32) (32 - 1) = 1).
    { rewrite shr_div by lia. symmetry.
      apply (Z.div_unique _ _ 1 (t - 2 ^ 26 + 2 ^ 31)); lia. }
    rewrite S. change (sub32 1 1) with 0. change (not32 0) with 4294967295.
    rewrite !Z.land_0_r, !Z.lor_0_r.
    rewrite !land_ones32 by lia.
    split; [lia|].
    symmetry. apply Z.mod_small.
    subst t b3 b2 b1 b0. limb_arith.
  - (* at or above the modulus: the difference is kept *)
    assert (T : t = 2 ^ 26) by lia.
    rewrite T. change (sub32 (2 ^ 26) (2 ^ 26)) with 0.
    change (shr 0 (32 - 1)) with 0. change (sub32 0 1) with 4294967295.
    change (not32 4294967295) with 0.
    rewrite !Z.land_0_r, !Z.lor_0_l.
    rewrite !land_ones32 by lia.
    split; [lia|].
    apply (Z.mod_unique_pos _ _ 1); subst t b3 b2 b1 b0; limb_arith.
Qed.

(** Stage 3: repacking 5 x 26 bits into 4 x 32 bits keeps the low 128 bits. *)
Lemma pack_spec (x : limbs) :
  canonical x ->
  words_ok (pack x) /\ wvalue (pack x) = value x mod 2 ^ 128.
Proof.
  intros (H0 & H1 & H2 & H3 & H4).
  destruct x as [a0 a1 a2 a3 a4]. cbn [l0 l1 l2 l3 l4] in *.
  unfold pack, words_ok, wvalue, value. cbn [l0 l1 l2 l3 l4 w0 w1 w2 w3].
  rewrite !shl32_split by lia. rewrite !shr_div by lia.
  change (32 - 26) with 6. change (32 - 20) with 12.
  change (32 - 14) with 18. change (32 - 8) with 24.
  split_at a1 6. split_at a2 12. split_at a3 18. split_at a4 24.
  assert (Q1 : 0 <= a1 / 2 ^ 6 < 2 ^ 20)
    by (split; [apply Z.div_pos | apply Z.div_lt_upper_bound]; lia).
  assert (Q2 : 0 <= a2 / 2 ^ 12 < 2 ^ 14)
    by (split; [apply Z.div_pos | apply Z.div_lt_upper_bound]; lia).
  assert (Q3 : 0 <= a3 / 2 ^ 18 < 2 ^ 8)
    by (split; [apply Z.div_pos | apply Z.div_lt_upper_bound]; lia).
  assert (Q4 : 0 <= a4 / 2 ^ 24 < 2 ^ 2)
    by (split; [apply Z.div_pos | apply Z.div_lt_upper_bound]; lia).
  rewrite !lor_disjoint_add by lia.
  split; [|apply (Z.mod_unique_pos _ _ (a4 / 2 ^ 24))];
    name_quotients 6; name_quotients 12; name_quotients 18; name_quotients 24;
    lia.
Qed.

(** Stage 4: the 32-bit carry chain adds the pad modulo 2^128. *)
Lemma add_pad_spec (x pad : words) :
  words_ok x -> words_ok pad ->
  words_ok (add_pad x pad)
  /\ wvalue (add_pad x pad) = (wvalue x + wvalue pad) mod 2 ^ 128.
Proof.
  intros (X0 & X1 & X2 & X3) (P0 & P1 & P2 & P3).
  destruct x as [x0 x1 x2 x3]. destruct pad as [p0 p1 p2 p3].
  cbn [w0 w1 w2 w3] in *.
  unfold add_pad, words_ok, wvalue. cbn [w0 w1 w2 w3].
  rewrite !u64_small by lia. unfold add64.
  rewrite (u64_small (x0 + p0)) by lia.
  rewrite !shr_div by lia. unfold u32.
  set (f0 := x0 + p0) in *.
  assert (C0 : 0 <= f0 / 2 ^ 32 <= 1)
    by (split; [apply Z.div_pos | apply Z.lt_succ_r, Z.div_lt_upper_bound]; lia).
  rewrite (u64_small (x1 + p1)), (u64_small (x1 + p1 + _)) by lia.
  set (f1 := x1 + p1 + f0 / 2 ^ 32) in *.
  assert (C1 : 0 <= f1 / 2 ^ 32 <= 1)
    by (split; [apply Z.div_pos | apply Z.lt_succ_r, Z.div_lt_upper_bound]; lia).
  rewrite (u64_small (x2 + p2)), (u64_small (x2 + p2 + _)) by lia.
  set (f2 := x2 + p2 + f1 / 2 ^ 32) in *.
  assert (C2 : 0 <= f2 / 2 ^ 32 <= 1)
    by (split; [apply Z.div_pos | apply Z.lt_succ_r, Z.div_lt_upper_bound]; lia).
  rewrite (u64_small (x3 + p3)), (u64_small (x3 + p3 + _)) by lia.
  set (f3 := x3 + p3 + f2 / 2 ^ 32) in *.
  split_at f0 32. split_at f1 32. split_at f2 32. split_at f3 32.
  split; [|apply (Z.mod_unique_pos _ _ (f3 / 2 ^ 32))];
    subst f3 f2 f1 f0; name_quotients 32; lia.
Qed.

Lemma to_byte_mod (a b : Z) : a mod 256 = b mod 256 -> to_byte a = to_byte b.
Proof. intros H. unfold to_byte. now rewrite H. Qed.

Lemma le_bytes_low (n : nat) :
  forall a b : Z, le_bytes n (a + 256 ^ Z.of_nat n * b) = le_bytes n a.
Proof.
  induction n as [|n IH]; intros a b; cbn [le_bytes]; [reflexivity|].
  rewrite Nat2Z.inj_succ, Z.pow_succ_r by lia. f_equal.
  - apply to_byte_mod.
    replace (a + 256 * 256 ^ Z.of_nat n * b) with (a + (256 ^ Z.of_nat n * b) * 256)
      by lia.
    apply Z_mod_plus_full.
  - replace (a + 256 * 256 ^ Z.of_nat n * b) with (a + (256 ^ Z.of_nat n * b) * 256)
      by lia.
    rewrite Z.div_add by lia. apply IH.
Qed.

Lemma le_bytes_split (n m : nat) :
  forall x : Z,
    le_bytes (n + m) x = le_bytes n x ++ le_bytes m (x / 256 ^ Z.of_nat n).
Proof.
  induction n as [|n IH]; intros x; cbn [le_bytes Nat.add app].
  - now rewrite Z.div_1_r.
  - rewrite IH. do 2 f_equal.
    rewrite Nat2Z.inj_succ, Z.pow_succ_r, Z.div_div by lia. reflexivity.
Qed.

Lemma le_bytes_word (n : nat) (w c : Z) :
  0 <= w < 2 ^ 32 ->
  le_bytes (4 + n) (w + 2 ^ 32 * c) = le_bytes 4 w ++ le_bytes n c.
Proof.
  intros H. rewrite le_bytes_split.
  pose proof (le_bytes_low 4 w c) as L.
  change (256 ^ Z.of_nat 4) with (2 ^ 32) in *.
  rewrite L. f_equal. f_equal.
  replace (w + 2 ^ 32 * c) with (w + c * 2 ^ 32) by lia.
  rewrite Z.div_add by lia. rewrite Z.div_small by lia. lia.
Qed.

Lemma le_bytes_4 (w : Z) :
  [to_byte w; to_byte (shr w 8); to_byte (shr w 16); to_byte (shr w 24)]
  = le_bytes 4 w.
Proof.
  cbn [le_bytes]. rewrite !shr_div by lia. rewrite !Z.div_div by lia.
  reflexivity.
Qed.

(** Stage 5: the sixteen bytes are the little-endian digits of the words. *)
Lemma encode_spec (x : words) :
  words_ok x -> encode x = le_bytes 16 (wvalue x).
Proof.
  intros (X0 & X1 & X2 & X3). unfold wvalue.
  replace (w0 x + 2 ^ 32 * w1 x + 2 ^ 64 * w2 x + 2 ^ 96 * w3 x)
    with (w0 x + 2 ^ 32 * (w1 x + 2 ^ 32 * (w2 x + 2 ^ 32 * (w3 x + 2 ^ 32 * 0))))
    by lia.
  rewrite (le_bytes_word 12), (le_bytes_word 8), (le_bytes_word 4), (le_bytes_word 0)
    by assumption.
  rewrite <- !le_bytes_4. reflexivity.
Qed.

Lemma finish_carried (x : limbs) (pad : words) :
  carried x -> words_ok pad ->
  finish x pad = reference_tag (value x) pad.
Proof.
  intros Hx Hp. rewrite finish_stages.
  destruct (full_carry_spec x Hx) as [Hc Vc].
  destruct (select_spec _ Hc) as [Hs Vs].
  destruct (pack_spec _ Hs) as [Hk Vk].
  destruct (add_pad_spec _ pad Hk Hp) as [Ha Va].
  rewrite (encode_spec _ Ha), Va, Vk, Vs. unfold reference_tag.
  do 4 f_equal.
  destruct Vc as [-> | ->]; [reflexivity|].
  replace (value x - P1305) with (value x + (-1) * P1305) by lia.
  apply Z_mod_plus_full.
Qed.

(** ** Ranges *)

Lemma byte_val_range (b : byte) : 0 <= byte_val b < 256.
Proof.
  unfold byte_val. pose proof (Byte.to_N_bounded b) as H. lia.
Qed.

Lemma get_range (a : list byte) (i : nat) : 0 <= get a i < 256.
Proof. apply byte_val_range. Qed.

Lemma to_byte_val (b : byte) : to_byte (byte_val b) = b.
Proof.
  unfold to_byte. rewrite Z.mod_small by apply byte_val_range.
  unfold byte_val. rewrite N2Z.id, Byte.of_to_N. reflexivity.
Qed.

Lemma byte_val_to_byte (x : Z) : byte_val (to_byte x) = x mod 256.
Proof.
  unfold to_byte, byte_val.
  pose proof (Z.mod_pos_bound x 256 ltac:(lia)) as M.
  destruct (Byte.of_N (Z.to_N (x mod 256))) as [b|] eqn:E.
  - apply Byte.to_of_N in E. rewrite E. lia.
  - apply Byte.of_N_None_iff in E. lia.
Qed.

Lemma le32_value (b0 b1 b2 b3 : Z) :
  0 <= b0 < 256 -> 0 <= b1 < 256 -> 0 <= b2 < 256 -> 0 <= b3 < 256 ->
  le32 b0 b1 b2 b3 = b0 + 2 ^ 8 * b1 + 2 ^ 16 * b2 + 2 ^ 24 * b3.
Proof.
  intros H0 H1 H2 H3. unfold le32.
  rewrite !shl32_split by lia.
  rewrite (Z.mod_small b1), (Z.mod_small b2), (Z.mod_small b3) by lia.
  rewrite (lor_disjoint_add b0 b1 8) by lia.
  rewrite (lor_disjoint_add _ b2 16) by lia.
  rewrite (lor_disjoint_add _ b3 24) by lia.
  lia.
Qed.

Lemma le32_range (b0 b1 b2 b3 : Z) :
  0 <= b0 < 256 -> 0 <= b1 < 256 -> 0 <= b2 < 256 -> 0 <= b3 < 256 ->
  0 <= le32 b0 b1 b2 b3 < 2 ^ 32.
Proof. intros H0 H1 H2 H3. rewrite le32_value by assumption. lia. Qed.

Lemma le_bytes_le32 (a b c d : byte) :
  le_bytes 4 (le32 (byte_val a) (byte_val b) (byte_val c) (byte_val d))
  = [a; b; c; d].
Proof.
  pose proof (byte_val_range a). pose proof (byte_val_range b).
  pose proof (byte_val_range c). pose proof (byte_val_range d).
  rewrite le32_value by assumption.
  replace (byte_val a + 2 ^ 8 * byte_val b + 2 ^ 16 * byte_val c + 2 ^ 24 * byte_val d)
    with (byte_val a + 256 ^ Z.of_nat 1
          * (byte_val b + 256 ^ Z.of_nat 1
             * (byte_val c + 256 ^ Z.of_nat 1 * (byte_val d + 256 ^ Z.of_nat 1 * 0))))
    by (change (256 ^ Z.of_nat 1) with 256; lia).
  assert (S : forall (n : nat) (x y : Z),
             0 <= x < 256 ->
             le_bytes (1 + n) (x + 256 ^ Z.of_nat 1 * y) = to_byte x :: le_bytes n y).
  { intros n x y Hx. rewrite le_bytes_split, le_bytes_low. cbn [le_bytes app].
    do 2 f_equal. change (256 ^ Z.of_nat 1) with 256.
    replace (x + 256 * y) with (x + y * 256) by lia.
    rewrite Z.div_add, Z.div_small by lia. lia. }
  rewrite (S 3%nat), (S 2%nat), (S 1%nat), (S 0%nat) by assumption.
  now rewrite !to_byte_val.
Qed.

(** Whatever it is given, one fold leaves limbs in the carried ranges: the
    limbs are masked to 26 bits, and the carry added to the second one is
    the top six bits of a 32-bit word. *)
Lemma carried_after_reduce (a b c d e f : Z) :
  carried (Limbs (Z.land (add32 (Z.land a 0x3ffffff) f) 0x3ffffff)
                 (add32 (Z.land b 0x3ffffff) (shr (add32 (Z.land a 0x3ffffff) f) 26))
                 (Z.land c 0x3ffffff) (Z.land d 0x3ffffff) (Z.land e 0x3ffffff)).
Proof.
  unfold carried. cbn [l0 l1 l2 l3 l4]. rewrite !land_mask26.
  set (t := add32 (a mod 2 ^ 26) f).
  assert (T : 0 <= t < 2 ^ 32) by (apply Z.mod_pos_bound; lia).
  clearbody t.
  assert (S : 0 <= shr t 26 < 2 ^ 6).
  { rewrite shr_div by lia.
    split; [apply Z.div_pos | apply Z.div_lt_upper_bound]; lia. }
  pose proof (Z.mod_pos_bound t (2 ^ 26) ltac:(lia)).
  pose proof (Z.mod_pos_bound b (2 ^ 26) ltac:(lia)).
  pose proof (Z.mod_pos_bound c (2 ^ 26) ltac:(lia)).
  pose proof (Z.mod_pos_bound d (2 ^ 26) ltac:(lia)).
  pose proof (Z.mod_pos_bound e (2 ^ 26) ltac:(lia)).
  unfold add32. rewrite u32_small by lia. lia.
Qed.

Lemma fold_limbs_carried (k : multiplier) (x m : limbs) :
  carried (fold_limbs k x m).
Proof. unfold fold_limbs. cbv zeta. apply carried_after_reduce. Qed.

Lemma carried_zero : carried zero_limbs.
Proof. unfold carried, zero_limbs. cbn. lia. Qed.

Lemma fold_blocks_carried (flag : Z) (k : multiplier) (msg : list byte) :
  forall (n i : nat) (x : limbs),
    carried x -> carried (fold_blocks n msg i flag k x).
Proof.
  induction n as [|n IH]; intros i x Hx; cbn [fold_blocks]; [exact Hx|].
  apply IH, fold_limbs_carried.
Qed.

Lemma words_ok_initialize (key : list byte) : words_ok (snd (initialize key)).
Proof.
  unfold initialize, words_ok. cbn [snd w0 w1 w2 w3].
  repeat split; apply le32_range; apply get_range.
Qed.

(** On a reachable engine the accumulator is carried and the pad words are
    32-bit words. *)
Lemma reachable_ranges (p : polyHash) :
  reachable p -> carried (h p) /\ words_ok (pad p).
Proof.
  induction 1 as [key p HN | msg p Hp [IHh IHp]].
  - apply New_inl in HN as [_ ->]. split; [apply carried_zero|].
    apply words_ok_initialize.
  - pose proof (reachable_well_formed p Hp) as Hwf. pose proof Hwf as [Hb Ho].
    destruct (Z.eq_dec (off p) 0) as [E|E].
    + rewrite Write_from_empty by assumption. cbn [snd buffered h pad].
      split; [now apply fold_blocks_carried | assumption].
    + destruct (Z_lt_le_dec (slen msg) (16 - off p)) as [L|L].
      * rewrite Write_short by (try assumption; lia). cbn [snd].
        destruct (scap msg <? 16 - off p); [now split|].
        cbn [completed h pad]. split; [apply fold_limbs_carried | assumption].
      * rewrite Write_from_partial by (try assumption; lia).
        cbn [snd buffered completed h pad r].
        split; [apply fold_blocks_carried, fold_limbs_carried | assumption].
Qed.

Lemma final_h_carried (p : polyHash) : carried (h p) -> carried (final_h p).
Proof.
  intros H. unfold final_h. destruct (0 <? off p); [|exact H].
  apply fold_limbs_carried.
Qed.

(** ** The tag produced by [finish] *)

(** C3. For every accumulator in the limb ranges that [update] leaves,
    [finish] (full carry, then the mask-selected subtraction of
    p = 2^130 - 5) encodes the tag that exact arithmetic gives for its value
    [v], the little-endian bytes of ((v mod p) mod 2^128 + pad) mod 2^128.
    This holds in particular when [v] is at or above p, where in these
    ranges reducing modulo p is subtracting p once. *)
Theorem finish_reduces_modulo_p (x : limbs) (pad : words) :
  carried x -> words_ok pad ->
  finish x pad
  = le_bytes 16 (((value x mod P1305) mod 2 ^ 128 + wvalue pad) mod 2 ^ 128)
  /\ (P1305 <= value x -> value x mod P1305 = value x - P1305)
  /\ (value x < P1305 -> value x mod P1305 = value x).
Proof.
  intros Hx Hp. split; [now apply finish_carried|].
  destruct Hx as (H0 & H1 & H2 & H3 & H4).
  split; intros Hv.
  - symmetry. apply (Z.mod_unique_pos _ _ 1); [|lia].
    unfold value, P1305 in *. lia.
  - apply Z.mod_small. unfold value in *. lia.
Qed.

Lemma finish_reduces_modulo_p_witness :
  let x := Limbs (2 ^ 26 - 5) (2 ^ 26 - 1) (2 ^ 26 - 1) (2 ^ 26 - 1) (2 ^ 26 - 1) in
  let pad := Words 0x03020100 0x07060504 0x0b0a0908 0x0f0e0d0c in
  value x = P1305
  /\ finish x pad
     = [x00; x01; x02; x03; x04; x05; x06; x07; x08; x09; x0a; x0b; x0c; x0d; x0e; x0f].
Proof.
  intros x pad. split; [reflexivity|].
  assert (Hx : carried x) by (unfold carried, x; cbn; lia).
  assert (Hp : words_ok pad) by (unfold words_ok, pad; cbn; lia).
  destruct (finish_reduces_modulo_p x pad Hx Hp) as [E _].
  rewrite E. vm_compute. reflexivity.
Defined.

(** The boundary values p-1, p and p+1 in carried limbs, and 2p-1, which
    needs a fifth limb of 27 bits and so lies outside the carried ranges:
    [finish] agrees with exact arithmetic on each. *)
Example finish_at_boundaries :
  let pad := Words 0xfffffff0 0xffffffff 0x00000001 0x80000000 in
  let m := 2 ^ 26 - 1 in
  finish (Limbs (2 ^ 26 - 6) m m m m) pad = reference_tag (P1305 - 1) pad
  /\ finish (Limbs (2 ^ 26 - 5) m m m m) pad = reference_tag P1305 pad
  /\ finish (Limbs (2 ^ 26 - 4) m m m m) pad = reference_tag (P1305 + 1) pad
  /\ finish (Limbs (2 ^ 26 - 11) m m m (2 ^ 27 - 1)) pad
     = reference_tag (2 * P1305 - 1) pad
  /\ value (Limbs (2 ^ 26 - 11) m m m (2 ^ 27 - 1)) = 2 * P1305 - 1.
Proof. vm_compute. repeat split. Qed.

(** Outside the carried ranges [finish] need not agree with exact
    arithmetic: here the second limb ends the carry chain with 27 bits. *)
Example finish_outside_carried_ranges :
  let x := Limbs (2 ^ 26 - 1) (2 ^ 26 - 1) 1 0 (2 ^ 26) in
  finish x (Words 0 0 0 0) <> reference_tag (value x) (Words 0 0 0 0).
Proof. vm_compute. discriminate. Qed.

Lemma get_app_from (a b : list byte) (n : nat) :
  (length a <= n)%nat -> get (a ++ b) n = get b (n - length a).
Proof. intros H. unfold get. now rewrite app_nth2 by lia. Qed.

Lemma pad_bytes_app (pre tl : list byte) :
  length pre = 16%nat -> length tl = 16%nat ->
  le_bytes 16 (wvalue (snd (initialize (pre ++ tl)))) = tl.
Proof.
  intros Lp Lt. unfold initialize, wvalue. cbn [snd w0 w1 w2 w3].
  rewrite !get_app_from by (rewrite Lp; lia). rewrite Lp. cbn [Nat.sub].
  do 16 (destruct tl as [|? tl]; [discriminate Lt|]).
  destruct tl as [|? tl]; [|discriminate Lt].
  unfold get. cbn [nth].
  match goal with
  | |- le_bytes 16 (?a + 2 ^ 32 * ?b + 2 ^ 64 * ?c + 2 ^ 96 * ?d) = _ =>
      replace (a + 2 ^ 32 * b + 2 ^ 64 * c + 2 ^ 96 * d)
        with (a + 2 ^ 32 * (b + 2 ^ 32 * (c + 2 ^ 32 * (d + 2 ^ 32 * 0)))) by lia
  end.
  rewrite (le_bytes_word 12), (le_bytes_word 8), (le_bytes_word 4), (le_bytes_word 0)
    by (apply le32_range; apply byte_val_range).
  rewrite !le_bytes_le32. reflexivity.
Qed.

(** The little-endian bytes of the pad words are the second half of the
    key. *)
Lemma pad_bytes (key : list byte) :
  len key = 32 -> le_bytes 16 (wvalue (snd (initialize key))) = skipn 16 key.
Proof.
  intros H. assert (L : length key = 32%nat) by (unfold len in H; lia).
  rewrite <- (firstn_skipn 16 key) at 1.
  apply pad_bytes_app; [rewrite length_firstn | rewrite length_skipn]; lia.
Qed.

Lemma Writes_of_nothing (key : list byte) (chunks : list slice) :
  Forall (fun c => elems c = []) chunks ->
  Writes chunks (fresh key) = (Ok tt, fresh key).
Proof.
  induction 1 as [|c chunks Hc _ IH]; cbn [Writes]; [reflexivity|].
  erewrite bind_ok by (apply Write_from_empty; reflexivity).
  rewrite Hc. exact IH.
Qed.

(** C9. On a freshly constructed engine, after no [Write] at all or after
    any number of zero-length ones, [Sum] returns: it folds no block, the
    accumulator it finishes is zero, and the tag is the little-endian
    encoding of the pad words, which are the last 16 bytes of the key; this
    is what exact arithmetic gives for the value 0. *)
Theorem empty_message_tag
    (key : list byte) (chunks : list slice) (b : slice) (p : polyHash) :
  New key = inl p ->
  Forall (fun c => elems c = []) chunks ->
  (Writes chunks;; Sum b) p = (Ok (elems b ++ le_bytes 16 (wvalue (pad p))), p)
  /\ final_h p = Limbs 0 0 0 0 0
  /\ le_bytes 16 (wvalue (pad p)) = skipn 16 key
  /\ le_bytes 16 (wvalue (pad p))
     = le_bytes 16 (((0 mod P1305) mod 2 ^ 128 + wvalue (pad p)) mod 2 ^ 128).
Proof.
  intros HN Hc. apply New_inl in HN as [Hk ->].
  assert (Hp : words_ok (pad (fresh key))) by apply words_ok_initialize.
  assert (R : le_bytes 16 (wvalue (pad (fresh key)))
              = le_bytes 16 (((0 mod P1305) mod 2 ^ 128 + wvalue (pad (fresh key)))
                             mod 2 ^ 128)).
  { f_equal. change ((0 mod P1305) mod 2 ^ 128) with 0. rewrite Z.add_0_l.
    symmetry. apply Z.mod_small.
    destruct Hp as (P0 & P1 & P2 & P3). unfold wvalue. lia. }
  split; [|split; [reflexivity | split; [now apply pad_bytes | exact R]]].
  erewrite bind_ok by (apply Writes_of_nothing; exact Hc).
  rewrite Sum_value by apply well_formed_fresh.
  change (final_h (fresh key)) with zero_limbs.
  rewrite finish_carried by (try apply carried_zero; exact Hp).
  unfold reference_tag. change (value zero_limbs) with 0.
  now rewrite <- R.
Qed.

Lemma empty_message_tag_witness :
  let key := repeat x00 16 ++ [x00; x01; x02; x03; x04; x05; x06; x07;
                                x08; x09; x0a; x0b; x0c; x0d; x0e; x0f] in
  fst ((Writes [Slice [] [x07]; of_bytes []];; Sum (of_bytes [])) (fresh key))
  = Ok (skipn 16 key).
Proof.
  intros key.
  destruct (empty_message_tag key [Slice [] [x07]; of_bytes []] (of_bytes [])
              (fresh key)) as (E & _ & K & _).
  - reflexivity.
  - repeat constructor.
  - rewrite E, K. reflexivity.
Defined.

(** ** Block flags *)

Lemma Write_accumulates (msg : slice) (p p' : polyHash) (v : Z * option error) :
  well_formed p -> Write msg p = (Ok v, p') ->
  h p' = absorbed (prepare (r p))
           (firstn (Z.to_nat (off p)) (buf p) ++ elems msg) (h p).
Proof.
  intros Hwf HW. pose proof Hwf as [Hb Ho].
  destruct (Z.eq_dec (off p) 0) as [E|E].
  - rewrite Write_from_empty in HW by assumption.
    assert (Hp' : p' = buffered p (elems msg)) by congruence.
    rewrite Hp', E. reflexivity.
  - destruct (Z_lt_le_dec (slen msg) (16 - off p)) as [L|L].
    + rewrite Write_short in HW by (try assumption; lia). discriminate.
    + rewrite Write_from_partial in HW by (try assumption; lia).
      assert (Hp' : p' = buffered (completed p (elems msg))
                           (skipn (Z.to_nat (16 - off p)) (elems msg)))
        by congruence.
      rewrite Hp'. cbn [buffered completed h r].
      replace (Z.to_nat (16 - off p)) with (16 - Z.to_nat (off p))%nat by lia.
      rewrite <- (firstn_skipn (16 - Z.to_nat (off p)) (elems msg)) at 4.
      rewrite app_assoc.
      rewrite (absorbed_app _ _ _ 1)
        by (apply length_completed; unfold slen, len in L; lia).
      reflexivity.
Qed.

Lemma decode_at_l4 (blk : list byte) (i : nat) (flag : Z) :
  l4 (decode_at blk i flag)
  = Z.lor (shr (le32 (get blk (i + 12)) (get blk (i + 13))
                     (get blk (i + 14)) (get blk (i + 15))) 8) flag.
Proof. reflexivity. Qed.

Lemma top_limb_24_bits (blk : list byte) (i : nat) :
  0 <= shr (le32 (get blk (i + 12)) (get blk (i + 13))
                 (get blk (i + 14)) (get blk (i + 15))) 8 < 2 ^ 24.
Proof.
  pose proof (le32_range _ _ _ _ (get_range blk (i + 12)) (get_range blk (i + 13))
                (get_range blk (i + 14)) (get_range blk (i + 15))) as H.
  rewrite shr_div by lia.
  split; [apply Z.div_pos | apply Z.div_lt_upper_bound]; lia.
Qed.

(** C6. Every block that [Write] folds, that is every whole 16-byte block
    of the buffered bytes followed by the input, is decoded with the flag
    [1<<24] ORed into its fifth limb.  [Sum] folds nothing more when the
    buffer is empty; otherwise it folds one block made of the buffered
    bytes, a single [0x01] at the offset and zeros up to 16 bytes, decoded
    with flag 0, so that bit 24 of its fifth limb is clear. *)
Theorem block_flag_discipline (p : polyHash) (msg b : slice) :
  reachable p ->
  (forall (p' : polyHash) (v : Z * option error),
      Write msg p = (Ok v, p') ->
      let stream := firstn (Z.to_nat (off p)) (buf p) ++ elems msg in
      h p' = fold_blocks (whole stream) stream 0 msgBlock (prepare (r p)) (h p))
  /\ (forall (blk : list byte) (i : nat),
         l4 (decode_at blk i msgBlock)
         = Z.lor (shr (le32 (get blk (i + 12)) (get blk (i + 13))
                            (get blk (i + 14)) (get blk (i + 15))) 8)
                 (Z.shiftl 1 24)
         /\ Z.testbit (l4 (decode_at blk i msgBlock)) 24 = true)
  /\ Sum b p
     = (Ok (elems b
            ++ finish
                 (if 0 <? off p then
                    fold_limbs (prepare (r p)) (h p)
                      (decode_at
                         (firstn (Z.to_nat (off p)) (buf p)
                          ++ x01 :: repeat x00 (15 - Z.to_nat (off p)))
                         0 finalBlock)
                  else h p)
                 (pad p)),
        p)
  /\ finalBlock = 0
  /\ (forall (blk : list byte) (i : nat),
         Z.testbit (l4 (decode_at blk i finalBlock)) 24 = false).
Proof.
  intros Hp. apply reachable_well_formed in Hp.
  split; [|split; [|split; [|split]]].
  - intros p' v HW stream. exact (Write_accumulates msg p p' v Hp HW).
  - intros blk i. rewrite decode_at_l4. split; [reflexivity|].
    rewrite Z.lor_spec. change msgBlock with (2 ^ 24).
    rewrite Z.pow2_bits_true by lia. apply orb_true_r.
  - exact (Sum_value b p Hp).
  - reflexivity.
  - intros blk i. rewrite decode_at_l4. change finalBlock with 0.
    rewrite Z.lor_0_r.
    pose proof (top_limb_24_bits blk i) as H.
    rewrite <- (Z.mod_small _ (2 ^ 24)) by exact H.
    apply Z.mod_pow2_bits_high. lia.
Qed.

Lemma block_flag_discipline_witness :
  let p := snd (Write (of_bytes (repeat xff 20)) (fresh (repeat x00 32))) in
  reachable p
  /\ l4 (decode_at (repeat xff 20) 0 msgBlock) = 0x1ffffff
  /\ l4 (decode_at (padded p) 0 finalBlock) = 0x00000000
  /\ padded p = [xff; xff; xff; xff; x01; x00; x00; x00;
                 x00; x00; x00; x00; x00; x00; x00; x00].
Proof.
  intros p.
  assert (R : reachable p).
  { apply reachable_Write, (reachable_New (repeat x00 32)). reflexivity. }
  split; [exact R|].
  destruct (block_flag_discipline p (of_bytes []) (of_bytes []) R)
    as (_ & F & _ & _ & _).
  destruct (F (repeat xff 20) 0%nat) as [E _].
  split; [rewrite E; reflexivity|].
  split; reflexivity.
Defined.

(** ** Verification *)

Lemma byte_val_inj (a b : byte) : byte_val a = byte_val b -> a = b.
Proof.
  intros H. rewrite <- (to_byte_val a), <- (to_byte_val b). now rewrite H.
Qed.

Lemma differences_range (x : list byte) :
  forall (y : list byte) (v : Z),
    0 <= v < 256 -> 0 <= differences x y v < 256.
Proof.
  induction x as [|a x IH]; intros y v Hv; [exact Hv|].
  destruct y as [|b y]; [exact Hv|].
  unfold differences. cbn [combine fold_left fst snd]. apply IH.
  pose proof (byte_val_range a) as Ha. pose proof (byte_val_range b) as Hb.
  assert (X : 0 <= Z.lxor (byte_val a) (byte_val b) < 2 ^ 8).
  { split; [apply Z.lxor_nonneg; lia|].
    destruct (Z.eq_dec (Z.lxor (byte_val a) (byte_val b)) 0) as [->|N]; [lia|].
    apply Z.log2_lt_pow2; [pose proof (Z.lxor_nonneg (byte_val a) (byte_val b)); lia|].
    eapply Z.le_lt_trans; [apply Z.log2_lxor; lia|].
    apply Z.max_lub_lt.
    - destruct (Z.eq_dec (byte_val a) 0) as [->|Na]; [cbn; lia|].
      apply Z.log2_lt_pow2; lia.
    - destruct (Z.eq_dec (byte_val b) 0) as [->|Nb]; [cbn; lia|].
      apply Z.log2_lt_pow2; lia. }
  split; [apply Z.lor_nonneg; lia|].
  destruct (Z.eq_dec (Z.lor v (Z.lxor (byte_val a) (byte_val b))) 0) as [->|N]; [lia|].
  assert (0 <= Z.lor v (Z.lxor (byte_val a) (byte_val b))) by (apply Z.lor_nonneg; lia).
  change 256 with (2 ^ 8). apply Z.log2_lt_pow2; [lia|].
  rewrite Z.log2_lor by lia.
  apply Z.max_lub_lt.
  - destruct (Z.eq_dec v 0) as [->|Nv]; [cbn; lia|]. apply Z.log2_lt_pow2; lia.
  - destruct (Z.eq_dec (Z.lxor (byte_val a) (byte_val b)) 0) as [->|Nx]; [cbn; lia|].
    apply Z.log2_lt_pow2; lia.
Qed.

Lemma differences_zero (x : list byte) :
  forall (y : list byte) (v : Z),
    length x = length y ->
    (differences x y v = 0 <-> v = 0 /\ x = y).
Proof.
  induction x as [|a x IH]; intros y v Hl; destruct y as [|b y];
    try discriminate Hl.
  - cbn. intuition.
  - unfold differences. cbn [combine fold_left fst snd].
    fold (differences x y (Z.lor v (Z.lxor (byte_val a) (byte_val b)))).
    rewrite IH by (cbn [length] in Hl; lia).
    rewrite Z.lor_eq_0_iff. split.
    + intros [[Hv Hx] ->]. split; [exact Hv|].
      f_equal. apply byte_val_inj. now apply Z.lxor_eq.
    + intros [Hv E]. inversion E; subst. now rewrite Z.lxor_nilpotent.
Qed.

Lemma ConstantTimeCompare_1 (x y : list byte) :
  ConstantTimeCompare x y = 1 <-> x = y.
Proof.
  unfold ConstantTimeCompare.
  destruct (len x =? len y) eqn:E; cbn [negb].
  - apply Z.eqb_eq in E.
    assert (Hl : length x = length y) by (unfold len in E; lia).
    fold (differences x y 0).
    pose proof (differences_range x y 0 ltac:(lia)) as R.
    pose proof (differences_zero x y 0 Hl) as Z0.
    unfold ConstantTimeByteEq. rewrite Z.lxor_0_r.
    rewrite u32_small by lia.
    destruct (Z.eq_dec (differences x y 0) 0) as [D|D].
    + rewrite D. split; [intros _; now apply Z0|reflexivity].
    + split.
      * unfold sub32. rewrite u32_small by lia. rewrite shr_div by lia.
        rewrite Z.div_small by lia. discriminate.
      * intros ->. exfalso. apply D. now apply Z0.
  - apply Z.eqb_neq in E. split; [discriminate|].
    intros ->. now elim E.
Qed.

Lemma Sum1_value (msg : slice) (key : list byte) :
  len key = 32 -> Sum1 msg key = Ok (mac key (elems msg)).
Proof.
  intros Hk. unfold Sum1. rewrite New_32 by exact Hk.
  erewrite bind_ok by (apply Write_from_empty; reflexivity).
  erewrite holds_Sum; [reflexivity|].
  apply (holds_Write key [] msg (fresh key) _ (slen msg, None) (holds_fresh key)).
  apply Write_from_empty; reflexivity.
Qed.

Lemma length_finish (x : limbs) (k : words) : length (finish x k) = 16%nat.
Proof. rewrite finish_stages. reflexivity. Qed.

(** C4. For every key of 32 bytes and every message, the one-shot tag is
    produced, has 16 bytes, and [Verify] applied to it, the message and the
    key returns [true].  On every candidate [Verify] returns a boolean and
    nothing else, [true] exactly when the candidate is that tag. *)
Theorem Verify_accepts_the_tag (key : list byte) (msg : slice) :
  len key = 32 ->
  exists tag : list byte,
    Sum1 msg key = Ok tag
    /\ len tag = TagSize
    /\ Verify tag msg key = Ok true
    /\ forall candidate : list byte,
        exists answer : bool,
          Verify candidate msg key = Ok answer
          /\ (answer = true <-> candidate = tag).
Proof.
  intros Hk. exists (mac key (elems msg)).
  pose proof (Sum1_value msg key Hk) as S.
  split; [exact S|]. split.
  { unfold mac, len. now rewrite length_finish. }
  assert (V : forall c, Verify c msg key
                        = Ok (ConstantTimeCompare (mac key (elems msg)) c =? 1)).
  { intros c. unfold Verify. rewrite S. reflexivity. }
  split.
  - rewrite V. f_equal. apply Z.eqb_eq. now apply ConstantTimeCompare_1.
  - intros c. eexists. split; [apply V|].
    rewrite Z.eqb_eq, ConstantTimeCompare_1. split; congruence.
Qed.

Lemma Verify_accepts_the_tag_witness :
  Verify [x01; x03; x80; x8a; xfb; x0d; xb2; xfd; x4a; xbf; xf6; xaf; x41; x49; xf5; x1b]
         (of_bytes [])
         [x85; xd6; xbe; x78; x57; x55; x6d; x33; x7f; x44; x52; xfe; x42; xd5; x06; xa8;
          x01; x03; x80; x8a; xfb; x0d; xb2; xfd; x4a; xbf; xf6; xaf; x41; x49; xf5; x1b]
  = Ok true.
Proof.
  destruct (Verify_accepts_the_tag
              [x85; xd6; xbe; x78; x57; x55; x6d; x33; x7f; x44; x52; xfe; x42; xd5; x06; xa8;
               x01; x03; x80; x8a; xfb; x0d; xb2; xfd; x4a; xbf; xf6; xaf; x41; x49; xf5; x1b]
              (of_bytes []) eq_refl) as (tag & S & _ & V & _).
  vm_compute in S. inversion S; subst tag. exact V.
Defined.

(** The engine reproduces the published vector of RFC 8439, section 2.5.2,
    in one [Write] and in chunks that the engine accepts. *)
Example known_answer :
  let key := [x85; xd6; xbe; x78; x57; x55; x6d; x33; x7f; x44; x52; xfe; x42; xd5; x06; xa8;
              x01; x03; x80; x8a; xfb; x0d; xb2; xfd; x4a; xbf; xf6; xaf; x41; x49; xf5; x1b] in
  let msg := [x43; x72; x79; x70; x74; x6f; x67; x72; x61; x70; x68; x69; x63; x20; x46; x6f;
              x72; x75; x6d; x20; x52; x65; x73; x65; x61; x72; x63; x68; x20; x47; x72; x6f;
              x75; x70] in
  let tag := [xa8; x06; x1d; xc1; x30; x51; x36; xc6; xc2; x2b; x8b; xaf; x0c; x01; x27; xa9] in
  Sum1 (of_bytes msg) key = Ok tag
  /\ Verify tag (of_bytes msg) key = Ok true
  /\ fst ((Writes [of_bytes (firstn 3 msg); of_bytes (firstn 13 (skipn 3 msg));
                   of_bytes (skipn 16 msg)];;
           Sum (of_bytes [])) (fresh key)) = Ok tag.
Proof. vm_compute. repeat split. Qed.

(** ** The arithmetic of one fold *)

Lemma fold_limbs_stages (k : multiplier) (x m : limbs) :
  fold_limbs k x m = multiply_reduce k (add_block x m).
Proof.
  unfold fold_limbs, multiply_reduce, reduce, column, column0, add_block.
  cbv beta zeta iota delta [l0 l1 l2 l3 l4].
  reflexivity.
Qed.

Lemma mul_bounds (a b A B : Z) :
  0 <= a <= A -> 0 <= b <= B -> 0 <= a * b <= A * B.
Proof.
  intros Ha Hb. split; [apply Z.mul_nonneg_nonneg; lia|].
  apply Z.mul_le_mono_nonneg; lia.
Qed.

Lemma prepare_canonical (k : limbs) :
  canonical k ->
  prepare k = Multiplier (l0 k) (l1 k) (l2 k) (l3 k) (l4 k)
                         (5 * l1 k) (5 * l2 k) (5 * l3 k) (5 * l4 k).
Proof.
  intros (K0 & K1 & K2 & K3 & K4). unfold prepare, mul32.
  rewrite !(u32_small (_ * 5)) by lia.
  rewrite !u64_small by lia.
  f_equal; lia.
Qed.

(** A column of the schoolbook product never wraps: limbs of at most 28
    bits against multipliers of at most 29 bits, plus a carry of 32 bits. *)
Lemma column_exact (c a0 a1 a2 a3 a4 k0 k1 k2 k3 k4 : Z) :
  0 <= c < 2 ^ 32 ->
  0 <= a0 < 2 ^ 28 -> 0 <= a1 < 2 ^ 28 -> 0 <= a2 < 2 ^ 28 ->
  0 <= a3 < 2 ^ 28 -> 0 <= a4 < 2 ^ 28 ->
  0 <= k0 < 2 ^ 29 -> 0 <= k1 < 2 ^ 29 -> 0 <= k2 < 2 ^ 29 ->
  0 <= k3 < 2 ^ 29 -> 0 <= k4 < 2 ^ 29 ->
  column c (Limbs a0 a1 a2 a3 a4) k0 k1 k2 k3 k4
  = c + a0 * k0 + a1 * k1 + a2 * k2 + a3 * k3 + a4 * k4.
Proof.
  intros Hc A0 A1 A2 A3 A4 K0 K1 K2 K3 K4.
  pose proof (mul_bounds a0 k0 (2 ^ 28) (2 ^ 29) ltac:(lia) ltac:(lia)) as P0.
  pose proof (mul_bounds a1 k1 (2 ^ 28) (2 ^ 29) ltac:(lia) ltac:(lia)) as P1.
  pose proof (mul_bounds a2 k2 (2 ^ 28) (2 ^ 29) ltac:(lia) ltac:(lia)) as P2.
  pose proof (mul_bounds a3 k3 (2 ^ 28) (2 ^ 29) ltac:(lia) ltac:(lia)) as P3.
  pose proof (mul_bounds a4 k4 (2 ^ 28) (2 ^ 29) ltac:(lia) ltac:(lia)) as P4.
  unfold column, add64, mul64. cbn [l0 l1 l2 l3 l4].
  rewrite (u64_small a0), (u64_small a1), (u64_small a2), (u64_small a3),
    (u64_small a4) by lia.
  rewrite (u64_small (a0 * k0)), (u64_small (a1 * k1)), (u64_small (a2 * k2)),
    (u64_small (a3 * k3)), (u64_small (a4 * k4)) by lia.
  rewrite (u64_small (c + _)) by lia.
  rewrite (u64_small (c + _ + _)) by lia.
  rewrite (u64_small (c + _ + _ + _)) by lia.
  rewrite (u64_small (c + _ + _ + _ + _)) by lia.
  rewrite (u64_small (c + _ + _ + _ + _ + _)) by lia.
  reflexivity.
Qed.

Lemma column0_exact (a0 a1 a2 a3 a4 k0 k1 k2 k3 k4 : Z) :
  0 <= a0 < 2 ^ 28 -> 0 <= a1 < 2 ^ 28 -> 0 <= a2 < 2 ^ 28 ->
  0 <= a3 < 2 ^ 28 -> 0 <= a4 < 2 ^ 28 ->
  0 <= k0 < 2 ^ 29 -> 0 <= k1 < 2 ^ 29 -> 0 <= k2 < 2 ^ 29 ->
  0 <= k3 < 2 ^ 29 -> 0 <= k4 < 2 ^ 29 ->
  column0 (Limbs a0 a1 a2 a3 a4) k0 k1 k2 k3 k4
  = a0 * k0 + a1 * k1 + a2 * k2 + a3 * k3 + a4 * k4.
Proof.
  intros A0 A1 A2 A3 A4 K0 K1 K2 K3 K4.
  pose proof (mul_bounds a0 k0 (2 ^ 28) (2 ^ 29) ltac:(lia) ltac:(lia)) as P0.
  pose proof (mul_bounds a1 k1 (2 ^ 28) (2 ^ 29) ltac:(lia) ltac:(lia)) as P1.
  pose proof (mul_bounds a2 k2 (2 ^ 28) (2 ^ 29) ltac:(lia) ltac:(lia)) as P2.
  pose proof (mul_bounds a3 k3 (2 ^ 28) (2 ^ 29) ltac:(lia) ltac:(lia)) as P3.
  pose proof (mul_bounds a4 k4 (2 ^ 28) (2 ^ 29) ltac:(lia) ltac:(lia)) as P4.
  unfold column0, add64, mul64. cbn [l0 l1 l2 l3 l4].
  rewrite (u64_small a0), (u64_small a1), (u64_small a2), (u64_small a3),
    (u64_small a4) by lia.
  rewrite (u64_small (a0 * k0)), (u64_small (a1 * k1)), (u64_small (a2 * k2)),
    (u64_small (a3 * k3)), (u64_small (a4 * k4)) by lia.
  rewrite (u64_small (a0 * k0 + _)) by lia.
  rewrite (u64_small (a0 * k0 + _ + _)) by lia.
  rewrite (u64_small (a0 * k0 + _ + _ + _)) by lia.
  rewrite (u64_small (a0 * k0 + _ + _ + _ + _)) by lia.
  reflexivity.
Qed.

Lemma land_u32_mask26 (d : Z) : Z.land (u32 d) 0x3ffffff = d mod 2 ^ 26.
Proof.
  rewrite land_mask26. unfold u32. apply Z.mod_mod_divide.
  exists (2 ^ 6). reflexivity.
Qed.

(** The reduction keeps the low 26 bits of each column and folds the top
    carry back into the first limb, five times over. *)
Lemma reduce_value (d0 d1 d2 d3 d4 : Z) :
  0 <= d4 -> 5 * (d4 / 2 ^ 26) + 2 ^ 26 <= 2 ^ 32 ->
  value (reduce d0 d1 d2 d3 d4)
  = d0 mod 2 ^ 26 + 5 * (d4 / 2 ^ 26) + 2 ^ 26 * (d1 mod 2 ^ 26)
    + 2 ^ 52 * (d2 mod 2 ^ 26) + 2 ^ 78 * (d3 mod 2 ^ 26)
    + 2 ^ 104 * (d4 mod 2 ^ 26).
Proof.
  intros H4 Hc. unfold reduce, value. cbn [l0 l1 l2 l3 l4].
  rewrite !land_u32_mask26, !land_mask26.
  rewrite !shr_div by lia.
  assert (C : 0 <= d4 / 2 ^ 26) by (apply Z.div_pos; lia).
  rewrite (u32_small (d4 / 2 ^ 26)) by lia.
  unfold mul32. rewrite (u32_small (d4 / 2 ^ 26 * 5)) by lia.
  pose proof (Z.mod_pos_bound d0 (2 ^ 26) ltac:(lia)) as M0.
  pose proof (Z.mod_pos_bound d1 (2 ^ 26) ltac:(lia)) as M1.
  unfold add32. rewrite (u32_small (d0 mod 2 ^ 26 + _)) by lia.
  set (t := d0 mod 2 ^ 26 + d4 / 2 ^ 26 * 5) in *.
  assert (T : 0 <= t / 2 ^ 26 < 2 ^ 6).
  { split; [apply Z.div_pos | apply Z.div_lt_upper_bound]; lia. }
  rewrite (u32_small (d1 mod 2 ^ 26 + _)) by lia.
  pose proof (Z.div_mod t (2 ^ 26) ltac:(lia)) as E.
  subst t. name_quotients 26. lia.
Qed.

Lemma carry_bound (d : Z) : 0 <= d < 2 ^ 58 -> 0 <= d / 2 ^ 26 < 2 ^ 32.
Proof.
  intros H. split; [apply Z.div_pos | apply Z.div_lt_upper_bound]; lia.
Qed.

Lemma product_of_bounds (a b : Z) :
  0 <= a <= 2 ^ 27 + 63 -> 0 <= b < 2 ^ 26 ->
  exists p, product_of p a b /\ 0 <= p <= 9007203348381633.
Proof.
  intros Ha Hb. exists (a * b). split; [reflexivity|].
  exact (mul_bounds a b (2 ^ 27 + 63) (2 ^ 26 - 1) ltac:(lia) ltac:(lia)).
Qed.

Ltac name_product a b p :=
  let Q := fresh "Q" in
  let R := fresh "R" in
  destruct (product_of_bounds a b ltac:(lia) ltac:(lia)) as (p & Q & R).

Ltac unlock_products :=
  repeat match goal with
         | Q : product_of ?p _ _ |- _ => unfold product_of in Q; subst p
         end.

Lemma multiply_reduce_columns (a : limbs) (k0 k1 k2 k3 k4 j1 j2 j3 j4 : Z) :
  multiply_reduce (Multiplier k0 k1 k2 k3 k4 j1 j2 j3 j4) a
  = reduce
      (column0 a k0 j4 j3 j2 j1)
      (column (shr (column0 a k0 j4 j3 j2 j1) 26) a k1 k0 j4 j3 j2)
      (column (shr (column (shr (column0 a k0 j4 j3 j2 j1) 26) a k1 k0 j4 j3 j2) 26)
         a k2 k1 k0 j4 j3)
      (column
         (shr (column
                 (shr (column (shr (column0 a k0 j4 j3 j2 j1) 26) a k1 k0 j4 j3 j2) 26)
                 a k2 k1 k0 j4 j3) 26)
         a k3 k2 k1 k0 j4)
      (column
         (shr (column
                 (shr (column
                         (shr (column (shr (column0 a k0 j4 j3 j2 j1) 26)
                                 a k1 k0 j4 j3 j2) 26)
                         a k2 k1 k0 j4 j3) 26)
                 a k3 k2 k1 k0 j4) 26)
         a k4 k3 k2 k1 k0).
Proof. reflexivity. Qed.

(** One fold multiplies in the field: with a multiplier of 26-bit limbs, an
    accumulator in the carried ranges and a decoded block, no intermediate
    value wraps, and the new accumulator stands for (h + m) * r modulo p. *)
Lemma fold_limbs_value (k x m : limbs) :
  canonical k -> carried x -> block_limbs m ->
  value (fold_limbs (prepare k) x m) mod P1305
  = ((value x + value m) * value k) mod P1305.
Proof.
  intros Hk Hx Hm. rewrite fold_limbs_stages, (prepare_canonical k Hk).
  destruct Hk as (K0 & K1 & K2 & K3 & K4).
  destruct Hx as (X0 & X1 & X2 & X3 & X4).
  destruct Hm as (M0 & M1 & M2 & M3 & M4).
  destruct k as [k0 k1 k2 k3 k4]. destruct x as [x0 x1 x2 x3 x4].
  destruct m as [m0 m1 m2 m3 m4]. cbn [l0 l1 l2 l3 l4] in *.
  unfold add_block, add32. cbn [l0 l1 l2 l3 l4].
  rewrite (u32_small (x0 + m0)), (u32_small (x1 + m1)), (u32_small (x2 + m2)),
    (u32_small (x3 + m3)), (u32_small (x4 + m4)) by abstract lia.
  set (a0 := x0 + m0). set (a1 := x1 + m1). set (a2 := x2 + m2).
  set (a3 := x3 + m3). set (a4 := x4 + m4).
  assert (A0 : 0 <= a0 <= 2 ^ 27 + 63) by (subst a0; lia).
  assert (A1 : 0 <= a1 <= 2 ^ 27 + 63) by (subst a1; lia).
  assert (A2 : 0 <= a2 <= 2 ^ 27 + 63) by (subst a2; lia).
  assert (A3 : 0 <= a3 <= 2 ^ 27 + 63) by (subst a3; lia).
  assert (A4 : 0 <= a4 <= 2 ^ 27 + 63) by (subst a4; lia).
  replace (value (Limbs x0 x1 x2 x3 x4) + value (Limbs m0 m1 m2 m3 m4))
    with (value (Limbs a0 a1 a2 a3 a4))
    by (unfold value; cbn [l0 l1 l2 l3 l4]; subst a0 a1 a2 a3 a4; ring).
  clearbody a0 a1 a2 a3 a4.
  clear X0 X1 X2 X3 X4 M0 M1 M2 M3 M4 x0 x1 x2 x3 x4 m0 m1 m2 m3 m4.
  name_product a0 k0 p00. name_product a0 k1 p01. name_product a0 k2 p02.
  name_product a0 k3 p03. name_product a0 k4 p04.
  name_product a1 k0 p10. name_product a1 k1 p11. name_product a1 k2 p12.
  name_product a1 k3 p13. name_product a1 k4 p14.
  name_product a2 k0 p20. name_product a2 k1 p21. name_product a2 k2 p22.
  name_product a2 k3 p23. name_product a2 k4 p24.
  name_product a3 k0 p30. name_product a3 k1 p31. name_product a3 k2 p32.
  name_product a3 k3 p33. name_product a3 k4 p34.
  name_product a4 k0 p40. name_product a4 k1 p41. name_product a4 k2 p42.
  name_product a4 k3 p43. name_product a4 k4 p44.
  rewrite multiply_reduce_columns.
  set (d0 := column0 _ _ _ _ _ _).
  assert (E0 : d0 = p00 + 5 * p14 + 5 * p23 + 5 * p32 + 5 * p41).
  { subst d0. rewrite column0_exact by abstract lia. unlock_products. abstract ring. }
  clearbody d0.
  assert (D0 : 0 <= d0 < 2 ^ 58) by abstract lia.
  pose proof (carry_bound d0 D0) as C0.
  rewrite !(shr_div d0) by abstract lia.
  set (d1 := column (d0 / 2 ^ 26) _ _ _ _ _ _).
  assert (E1 : d1 = d0 / 2 ^ 26 + p01 + p10 + 5 * p24 + 5 * p33 + 5 * p42).
  { subst d1. rewrite column_exact by abstract lia. unlock_products. abstract ring. }
  clearbody d1.
  assert (D1 : 0 <= d1 < 2 ^ 58) by abstract lia.
  pose proof (carry_bound d1 D1) as C1.
  rewrite !(shr_div d1) by abstract lia.
  set (d2 := column (d1 / 2 ^ 26) _ _ _ _ _ _).
  assert (E2 : d2 = d1 / 2 ^ 26 + p02 + p11 + p20 + 5 * p34 + 5 * p43).
  { subst d2. rewrite column_exact by abstract lia. unlock_products. abstract ring. }
  clearbody d2.
  assert (D2 : 0 <= d2 < 2 ^ 58) by abstract lia.
  pose proof (carry_bound d2 D2) as C2.
  rewrite !(shr_div d2) by abstract lia.
  set (d3 := column (d2 / 2 ^ 26) _ _ _ _ _ _).
  assert (E3 : d3 = d2 / 2 ^ 26 + p03 + p12 + p21 + p30 + 5 * p44).
  { subst d3. rewrite column_exact by abstract lia. unlock_products. abstract ring. }
  clearbody d3.
  assert (D3 : 0 <= d3 < 2 ^ 58) by abstract lia.
  pose proof (carry_bound d3 D3) as C3.
  rewrite !(shr_div d3) by abstract lia.
  set (d4 := column (d3 / 2 ^ 26) _ _ _ _ _ _).
  assert (E4 : d4 = d3 / 2 ^ 26 + p04 + p13 + p22 + p31 + p40).
  { subst d4. rewrite column_exact by abstract lia. unlock_products. abstract ring. }
  clearbody d4.
  assert (D4 : 0 <= d4 <= 2 ^ 32 + 5 * 9007203348381633) by abstract lia.
  assert (C4 : 0 <= d4 / 2 ^ 26 <= 5 * (2 ^ 27 + 63) + 64).
  { split; [apply Z.div_pos; lia|].
    apply Z.lt_succ_r, Z.div_lt_upper_bound; abstract lia. }
  rewrite reduce_value by abstract lia.
  assert (S : value (Limbs a0 a1 a2 a3 a4) * value (Limbs k0 k1 k2 k3 k4)
              = (p00 + 5 * p14 + 5 * p23 + 5 * p32 + 5 * p41)
                + 2 ^ 26 * (p01 + p10 + 5 * p24 + 5 * p33 + 5 * p42)
                + 2 ^ 52 * (p02 + p11 + p20 + 5 * p34 + 5 * p43)
                + 2 ^ 78 * (p03 + p12 + p21 + p30 + 5 * p44)
                + 2 ^ 104 * (p04 + p13 + p22 + p31 + p40)
                + (p14 + p23 + p32 + p41 + 2 ^ 26 * (p24 + p33 + p42)
                   + 2 ^ 52 * (p34 + p43) + 2 ^ 78 * p44) * P1305).
  { unlock_products. unfold value, P1305. cbn [l0 l1 l2 l3 l4]. abstract ring. }
  rewrite S. clear S.
  split_at d0 26. split_at d1 26. split_at d2 26. split_at d3 26. split_at d4 26.
  match goal with
  | |- ?lhs mod _ = ?rhs mod _ =>
      replace lhs
        with (rhs + (- (p14 + p23 + p32 + p41 + 2 ^ 26 * (p24 + p33 + p42)
                        + 2 ^ 52 * (p34 + p43) + 2 ^ 78 * p44 + d4 / 2 ^ 26))
                    * P1305);
      [apply Z_mod_plus_full|]
  end.
  unfold P1305. name_quotients 26. abstract lia.
Qed.

(** ** Numbers in bytes *)

Lemma le_num_app (a b : list byte) :
  le_num (a ++ b) = le_num a + 256 ^ Z.of_nat (length a) * le_num b.
Proof.
  induction a as [|x a IH]; cbn [app le_num length].
  - change (256 ^ Z.of_nat 0) with 1. lia.
  - rewrite IH, Nat2Z.inj_succ, Z.pow_succ_r by lia. ring.
Qed.

Lemma le_num_range (l : list byte) : 0 <= le_num l < 256 ^ Z.of_nat (length l).
Proof.
  induction l as [|b l IH]; cbn [le_num length].
  - change (256 ^ Z.of_nat 0) with 1. lia.
  - pose proof (byte_val_range b). rewrite Nat2Z.inj_succ, Z.pow_succ_r by lia. lia.
Qed.

Lemma le_num_zeros (n : nat) : le_num (repeat x00 n) = 0.
Proof. induction n as [|n IH]; cbn [repeat le_num]; [reflexivity|]. rewrite IH. reflexivity. Qed.

Lemma nth_skipn (l : list byte) (i j : nat) :
  nth j (skipn i l) x00 = nth (i + j) l x00.
Proof.
  revert l. induction i as [|i IH]; intros l; [reflexivity|].
  destruct l as [|b l]; [destruct j; reflexivity|]. apply IH.
Qed.

Lemma le_num_block (msg : list byte) (i : nat) :
  (i + 16 <= length msg)%nat ->
  le_num (block_at msg i)
  = get msg i + 2 ^ 8 * get msg (i + 1) + 2 ^ 16 * get msg (i + 2)
    + 2 ^ 24 * get msg (i + 3) + 2 ^ 32 * get msg (i + 4)
    + 2 ^ 40 * get msg (i + 5) + 2 ^ 48 * get msg (i + 6)
    + 2 ^ 56 * get msg (i + 7) + 2 ^ 64 * get msg (i + 8)
    + 2 ^ 72 * get msg (i + 9) + 2 ^ 80 * get msg (i + 10)
    + 2 ^ 88 * get msg (i + 11) + 2 ^ 96 * get msg (i + 12)
    + 2 ^ 104 * get msg (i + 13) + 2 ^ 112 * get msg (i + 14)
    + 2 ^ 120 * get msg (i + 15).
Proof.
  intros H. unfold block_at, get.
  replace (nth i msg x00) with (nth (i + 0) msg x00) by (now rewrite Nat.add_0_r).
  rewrite <- !nth_skipn.
  assert (L : (16 <= length (skipn i msg))%nat) by (rewrite length_skipn; lia).
  destruct (skipn i msg) as [|b0 [|b1 [|b2 [|b3 [|b4 [|b5 [|b6 [|b7 [|b8 [|b9
    [|b10 [|b11 [|b12 [|b13 [|b14 [|b15 rest]]]]]]]]]]]]]]]];
    cbn [length] in L; try lia.
  cbn [firstn le_num nth]. lia.
Qed.

(** ** Decoding a block *)

(** Powers of two with literal exponents, computed. *)
Ltac literal_powers :=
  repeat match goal with
         | |- context [2 ^ ?n] =>
             let v := eval cbv in (2 ^ n) in change (2 ^ n) with v in *
         | H : context [2 ^ ?n] |- _ =>
             let v := eval cbv in (2 ^ n) in change (2 ^ n) with v in *
         end.

(** The bits of [x] from [a] up, [b] of them, when [x] is laid out as a low
    part, the window, and a high part. *)
Lemma window (x a b lo mid hi : Z) :
  x = lo + a * (mid + b * hi) -> 0 <= lo < a -> 0 <= mid < b ->
  (x / a) mod b = mid.
Proof.
  intros E Hlo Hmid.
  assert (D : x / a = mid + b * hi).
  { symmetry. apply (Z.div_unique_pos x a _ lo); lia. }
  rewrite D. symmetry. apply (Z.mod_unique_pos _ _ hi); lia.
Qed.

Ltac byte_parts b k :=
  let E := fresh "E" in
  let M := fresh "M" in
  let q := fresh b "h" in
  let r := fresh b "l" in
  pose proof (Z.div_mod b k ltac:(lia)) as E;
  pose proof (Z.mod_pos_bound b k ltac:(lia)) as M;
  set (q := b / k) in *; set (r := b mod k) in *;
  clearbody q r.

(** The five limbs of a block spell the same number as its sixteen bytes,
    with the flag at bit 104 of the last limb, that is bit 128 of the
    number when the flag is [1<<24]. *)
Lemma decode_value (b0 b1 b2 b3 b4 b5 b6 b7 b8 b9 b10 b11 b12 b13 b14 b15 flag : Z) :
  0 <= b0 < 256 -> 0 <= b1 < 256 -> 0 <= b2 < 256 -> 0 <= b3 < 256 ->
  0 <= b4 < 256 -> 0 <= b5 < 256 -> 0 <= b6 < 256 -> 0 <= b7 < 256 ->
  0 <= b8 < 256 -> 0 <= b9 < 256 -> 0 <= b10 < 256 -> 0 <= b11 < 256 ->
  0 <= b12 < 256 -> 0 <= b13 < 256 -> 0 <= b14 < 256 -> 0 <= b15 < 256 ->
  flag = finalBlock \/ flag = msgBlock ->
  block_limbs (decode b0 b1 b2 b3 b4 b5 b6 b7 b8 b9 b10 b11 b12 b13 b14 b15 flag)
  /\ value (decode b0 b1 b2 b3 b4 b5 b6 b7 b8 b9 b10 b11 b12 b13 b14 b15 flag)
     = b0 + 2 ^ 8 * b1 + 2 ^ 16 * b2 + 2 ^ 24 * b3 + 2 ^ 32 * b4 + 2 ^ 40 * b5
       + 2 ^ 48 * b6 + 2 ^ 56 * b7 + 2 ^ 64 * b8 + 2 ^ 72 * b9 + 2 ^ 80 * b10
       + 2 ^ 88 * b11 + 2 ^ 96 * b12 + 2 ^ 104 * b13 + 2 ^ 112 * b14
       + 2 ^ 120 * b15 + 2 ^ 104 * flag.
Proof.
  intros B0 B1 B2 B3 B4 B5 B6 B7 B8 B9 B10 B11 B12 B13 B14 B15 F.
  unfold decode, block_limbs, value. cbn [l0 l1 l2 l3 l4].
  rewrite !land_mask26, !shr_div by lia. rewrite !le32_value by assumption.
  assert (G : 0 <= flag <= 2 ^ 24
              /\ forall y, 0 <= y < 2 ^ 24 -> Z.lor y flag = y + flag).
  { destruct F as [-> | ->].
    - change finalBlock with 0. split; [lia|]. intros y _. rewrite Z.lor_0_r. lia.
    - change msgBlock with (1 * 2 ^ 24). split; [lia|].
      intros y Hy. now rewrite lor_disjoint_add by lia. }
  destruct G as [G L]. clear F.
  byte_parts b3 4. byte_parts b6 16. byte_parts b9 64.
  assert (W : (b0 + 2 ^ 8 * b1 + 2 ^ 16 * b2 + 2 ^ 24 * b3) mod 2 ^ 26
              = b0 + 2 ^ 8 * b1 + 2 ^ 16 * b2 + 2 ^ 24 * b3l).
  { symmetry. apply (Z.mod_unique_pos _ _ b3h); lia. }
  rewrite W. clear W.
  rewrite (window _ (2 ^ 2) (2 ^ 26) b3l
             (b3h + 2 ^ 6 * b4 + 2 ^ 14 * b5 + 2 ^ 22 * b6l) b6h) by lia.
  rewrite (window _ (2 ^ 4) (2 ^ 26) b6l
             (b6h + 2 ^ 4 * b7 + 2 ^ 12 * b8 + 2 ^ 20 * b9l) b9h) by lia.
  rewrite (window _ (2 ^ 6) (2 ^ 26) b9l
             (b9h + 2 ^ 2 * b10 + 2 ^ 10 * b11 + 2 ^ 18 * b12) 0) by lia.
  assert (T : (b12 + 2 ^ 8 * b13 + 2 ^ 16 * b14 + 2 ^ 24 * b15) / 2 ^ 8
              = b13 + 2 ^ 8 * b14 + 2 ^ 16 * b15).
  { symmetry. apply (Z.div_unique_pos _ _ _ b12); lia. }
  rewrite T, L by lia.
  split; [lia | lia].
Qed.

Lemma decode_at_value (msg : list byte) (i : nat) (flag : Z) :
  (i + 16 <= length msg)%nat -> flag = finalBlock \/ flag = msgBlock ->
  block_limbs (decode_at msg i flag)
  /\ value (decode_at msg i flag) = le_num (block_at msg i) + 2 ^ 104 * flag.
Proof.
  intros H F. rewrite le_num_block by exact H.
  unfold decode_at. apply decode_value; try apply get_range. exact F.
Qed.

(** ** The polynomial *)

Lemma fold_blocks_value (k : limbs) (msg : list byte) :
  canonical k ->
  forall (n i : nat) (x : limbs),
    carried x -> (i + 16 * n <= length msg)%nat ->
    value (fold_blocks n msg i msgBlock (prepare k) x) mod P1305
    = horner n msg i (value k) (value x mod P1305).
Proof.
  intros Hk. induction n as [|n IH]; intros i x Hx Hl; cbn [fold_blocks horner].
  - reflexivity.
  - rewrite IH by (try apply fold_limbs_carried; lia).
    destruct (decode_at_value msg i msgBlock ltac:(lia) ltac:(now right)) as [Hm Vm].
    rewrite (fold_limbs_value k x _ Hk Hx Hm), Vm.
    change (2 ^ 104 * msgBlock) with (2 ^ 128).
    f_equal.
    rewrite <- Z.mul_mod_idemp_l by (unfold P1305; lia).
    rewrite <- (Z.add_mod_idemp_l (value x)) by (unfold P1305; lia).
    rewrite Z.mul_mod_idemp_l by (unfold P1305; lia).
    reflexivity.
Qed.

Lemma padded_block_number (t : list byte) :
  (length t < 16)%nat ->
  le_num (block_at (t ++ x01 :: repeat x00 (15 - length t)) 0)
  = le_num t + 2 ^ (8 * len t).
Proof.
  intros H. unfold block_at. cbn [skipn].
  rewrite firstn_all2
    by (rewrite length_app; cbn [length]; rewrite repeat_length; lia).
  rewrite le_num_app. cbn [le_num]. rewrite le_num_zeros.
  change (byte_val x01) with 1. unfold len.
  replace (256 ^ Z.of_nat (length t)) with (2 ^ (8 * Z.of_nat (length t))).
  - lia.
  - change 256 with (2 ^ 8). rewrite <- Z.pow_mul_r by lia. reflexivity.
Qed.

Lemma canonical_initialize (key : list byte) : canonical (fst (initialize key)).
Proof.
  unfold initialize, canonical. cbn [fst l0 l1 l2 l3 l4].
  assert (M : forall x c, 0 <= c < 2 ^ 26 -> 0 <= Z.land x c < 2 ^ 26).
  { intros x c Hc. split; [apply Z.land_nonneg; lia|].
    assert (E : Z.land x c = Z.land (Z.land x c) (Z.ones 26)).
    { rewrite <- Z.land_assoc. f_equal. rewrite Z.land_ones by lia.
      symmetry. apply Z.mod_small. lia. }
    rewrite E, Z.land_ones by lia. apply Z.mod_pos_bound. lia. }
  repeat split; apply M; lia.
Qed.

(** The engine computes Poly1305: the tag of a message under a key is the
    polynomial with the multiplier and the pad that [initialize] derives. *)
Lemma mac_value (key m : list byte) :
  mac key m
  = poly1305_tag (value (fst (initialize key))) (wvalue (snd (initialize key))) m.
Proof.
  unfold mac, poly1305_tag.
  pose proof (canonical_initialize key) as Hk.
  pose proof (words_ok_initialize key) as Hp.
  pose proof (length_tail_lt m) as Ht. pose proof (whole_le m) as Hw.
  set (k := fst (initialize key)) in *. set (s := snd (initialize key)) in *.
  assert (A : value (absorbed (prepare k) m zero_limbs) mod P1305
              = horner (whole m) m 0 (value k) 0).
  { unfold absorbed. rewrite fold_blocks_value by (try apply carried_zero; auto; lia).
    reflexivity. }
  assert (Ca : carried (absorbed (prepare k) m zero_limbs))
    by (apply fold_blocks_carried, carried_zero).
  set (x := absorbed (prepare k) m zero_limbs) in *.
  rewrite finish_carried; [|destruct (0 <? len (tail m)); [apply fold_limbs_carried | exact Ca]|exact Hp].
  unfold reference_tag. f_equal.
  rewrite Z.add_mod_idemp_l by lia. f_equal. f_equal.
  destruct (0 <? len (tail m)) eqn:E.
  - destruct (decode_at_value (tail m ++ x01 :: repeat x00 (15 - length (tail m))) 0
                finalBlock) as [Hm Vm].
    { rewrite length_app. cbn [length]. rewrite repeat_length. lia. }
    { now left. }
    rewrite (fold_limbs_value k x _ Hk Ca Hm), Vm, padded_block_number by exact Ht.
    change (2 ^ 104 * finalBlock) with 0. rewrite Z.add_0_r, <- A.
    rewrite <- Z.mul_mod_idemp_l by (unfold P1305; lia).
    rewrite <- (Z.add_mod_idemp_l (value x)) by (unfold P1305; lia).
    rewrite Z.mul_mod_idemp_l by (unfold P1305; lia).
    reflexivity.
  - exact A.
Qed.

(** ** The key *)

Lemma land_low_range (a m k : Z) :
  0 <= k -> 0 <= m < 2 ^ k -> 0 <= Z.land a m < 2 ^ k.
Proof.
  intros Hk Hm.
  assert (E : Z.land a m = Z.land (Z.land a m) (Z.ones k)).
  { rewrite <- Z.land_assoc. f_equal. rewrite Z.land_ones by lia.
    symmetry. apply Z.mod_small. lia. }
  rewrite E, Z.land_ones by lia. apply Z.mod_pos_bound.
  apply Z.pow_pos_nonneg; lia.
Qed.

(** [&] works limb by limb. *)
Lemma land_split (a b m n k : Z) :
  0 <= k -> 0 <= a < 2 ^ k -> 0 <= m < 2 ^ k ->
  Z.land (a + 2 ^ k * b) (m + 2 ^ k * n) = Z.land a m + 2 ^ k * Z.land b n.
Proof.
  intros Hk Ha Hm.
  pose proof (land_low_range a m k Hk Hm) as Hl.
  rewrite !(Z.mul_comm (2 ^ k)).
  rewrite <- !lor_disjoint_add by lia.
  apply Z.bits_inj'. intros i Hi.
  rewrite !Z.land_spec, !Z.lor_spec, !Z.land_spec.
  destruct (Z_lt_le_dec i k) as [L|L].
  - rewrite !Z.mul_pow2_bits_low by lia. now rewrite !orb_false_r.
  - rewrite !Z.mul_pow2_bits by lia. rewrite Z.land_spec.
    rewrite <- (Z.mod_small a (2 ^ k)) by lia.
    rewrite <- (Z.mod_small m (2 ^ k)) at 1 by lia.
    rewrite !Z.mod_pow2_bits_high by lia. reflexivity.
Qed.

Lemma land_limbs (d c : limbs) :
  canonical d -> canonical c ->
  value (Limbs (Z.land (l0 d) (l0 c)) (Z.land (l1 d) (l1 c)) (Z.land (l2 d) (l2 c))
               (Z.land (l3 d) (l3 c)) (Z.land (l4 d) (l4 c)))
  = Z.land (value d) (value c).
Proof.
  intros (D0 & D1 & D2 & D3 & D4) (C0 & C1 & C2 & C3 & C4).
  unfold value. cbn [l0 l1 l2 l3 l4].
  replace (l0 d + 2 ^ 26 * l1 d + 2 ^ 52 * l2 d + 2 ^ 78 * l3 d + 2 ^ 104 * l4 d)
    with (l0 d + 2 ^ 26 * (l1 d + 2 ^ 26 * (l2 d + 2 ^ 26 * (l3 d + 2 ^ 26 * l4 d))))
    by ring.
  replace (l0 c + 2 ^ 26 * l1 c + 2 ^ 52 * l2 c + 2 ^ 78 * l3 c + 2 ^ 104 * l4 c)
    with (l0 c + 2 ^ 26 * (l1 c + 2 ^ 26 * (l2 c + 2 ^ 26 * (l3 c + 2 ^ 26 * l4 c))))
    by ring.
  rewrite !land_split by lia. ring.
Qed.

Lemma land_under_mask26 (x c : Z) :
  Z.land 0x3ffffff c = c -> Z.land (Z.land x 0x3ffffff) c = Z.land x c.
Proof. intros H. now rewrite <- Z.land_assoc, H. Qed.

Lemma initialize_multiplier (key : list byte) :
  (16 <= length key)%nat ->
  canonical (fst (initialize key))
  /\ value (fst (initialize key)) = clamp (le_num (firstn 16 key)).
Proof.
  intros H. split; [apply canonical_initialize|].
  destruct (decode_at_value key 0 finalBlock ltac:(lia) ltac:(now left)) as [Hd Vd].
  change (2 ^ 104 * finalBlock) with 0 in Vd. rewrite Z.add_0_r in Vd.
  unfold block_at in Vd. cbn [skipn] in Vd.
  unfold clamp. rewrite <- Vd.
  change 0x0ffffffc0ffffffc0ffffffc0fffffff with (value clamp_limbs).
  rewrite <- land_limbs.
  - unfold initialize, decode_at, decode, clamp_limbs.
    cbn [fst l0 l1 l2 l3 l4 Nat.add].
    change finalBlock with 0. rewrite Z.lor_0_r.
    rewrite !land_under_mask26 by reflexivity. reflexivity.
  - destruct Hd as (D0 & D1 & D2 & D3 & D4). unfold canonical. lia.
  - unfold canonical, clamp_limbs. cbn. lia.
Qed.

Lemma initialize_pad (key : list byte) :
  length key = 32%nat ->
  words_ok (snd (initialize key))
  /\ wvalue (snd (initialize key)) = le_num (skipn 16 key).
Proof.
  intros H. split; [apply words_ok_initialize|].
  assert (B : block_at key 16 = skipn 16 key).
  { unfold block_at. apply firstn_all2. rewrite length_skipn. lia. }
  rewrite <- B, le_num_block by lia.
  unfold initialize, wvalue. cbn [snd w0 w1 w2 w3 Nat.add].
  rewrite !le32_value by apply get_range. ring.
Qed.

Lemma mac_poly1305 (key m : list byte) :
  len key = 32 -> mac key m = poly1305 key m.
Proof.
  intros H. assert (L : length key = 32%nat) by (unfold len in H; lia).
  rewrite mac_value. unfold poly1305.
  destruct (initialize_multiplier key ltac:(lia)) as [_ ->].
  destruct (initialize_pad key L) as [_ ->].
  reflexivity.
Qed.

(** ** What [update] computes *)

(** On whole blocks [update] returns, and it is Horner's rule modulo
    p = 2^130 - 5: with a multiplier of 26-bit limbs and an accumulator in
    the carried ranges, the new accumulator is again in those ranges and
    stands for the polynomial of the blocks, each read with the bit 2^128
    set, evaluated from the old value. *)
Theorem update_is_horner (msg : list byte) (n : nat) (x k : limbs) :
  canonical k -> carried x -> length msg = (16 * n)%nat ->
  exists x' : limbs,
    update msg msgBlock x k = Ok x'
    /\ carried x'
    /\ value x' mod P1305 = horner n msg 0 (value k) (value x mod P1305).
Proof.
  intros Hk Hx Hl. exists (fold_blocks n msg 0 msgBlock (prepare k) x).
  split; [now apply update_blocks|].
  split; [now apply fold_blocks_carried|].
  apply fold_blocks_value; [assumption | assumption | lia].
Qed.

Lemma update_is_horner_witness :
  let k := Limbs 2 0 0 0 0 in
  let msg := x03 :: repeat x00 15 in
  exists x' : limbs,
    update msg msgBlock zero_limbs k = Ok x'
    /\ value x' mod P1305 = (3 + 2 ^ 128) * 2.
Proof.
  intros k msg.
  destruct (update_is_horner msg 1 zero_limbs k) as (x' & U & _ & V).
  - unfold canonical, k. cbn. lia.
  - apply carried_zero.
  - reflexivity.
  - exists x'. split; [exact U|]. rewrite V. vm_compute. reflexivity.
Defined.

Lemma update_block_ragged (msg : list byte) (i : nat) (flag : Z)
    (k : multiplier) (x : limbs) :
  (length msg < i + 16)%nat ->
  update_block msg (Z.of_nat i) flag k x = Panic index_out_of_range.
Proof.
  intros H. unfold update_block.
  destruct (Z_lt_le_dec (Z.of_nat i) (len msg)) as [L|L];
    [rewrite (at32_in_range msg (Z.of_nat i)) by lia; cbn [rbind]
    |rewrite (at32_out_of_range msg (Z.of_nat i)) by lia; reflexivity].
  repeat match goal with
         | |- rbind (at32 msg ?j) _ = _ =>
             destruct (Z_lt_le_dec j (len msg));
             [rewrite (at32_in_range msg j) by lia; cbn [rbind]
             |rewrite (at32_out_of_range msg j) by lia; reflexivity]
         end.
  unfold len in *. lia.
Qed.

Lemma update_loop_ragged (flag : Z) (k : multiplier) (msg : list byte) :
  forall (n turns i : nat) (x : limbs),
    (i + 16 * n < length msg)%nat -> (length msg < i + 16 * n + 16)%nat ->
    (n < turns)%nat ->
    update_loop turns msg (Z.of_nat i) flag k x = Panic index_out_of_range.
Proof.
  induction n as [|n IH]; intros turns i x Hlo Hhi Hturns;
    (destruct turns as [|turns]; [lia|]); cbn [update_loop];
    replace (Z.of_nat i <? len msg) with true
      by (symmetry; apply Z.ltb_lt; unfold len; lia).
  - rewrite update_block_ragged by lia. reflexivity.
  - rewrite update_block_in_range by lia. cbn [rbind].
    replace (Z.of_nat i + TagSize) with (Z.of_nat (i + 16))
      by (unfold TagSize; lia).
    apply IH; lia.
Qed.

(** [update] returns exactly on inputs made of whole blocks.  On any other
    length its loop reads past the end: the call panics with an index out
    of range, and since the accumulator is stored only after the loop it is
    left as it was. *)
Theorem update_returns_on_whole_blocks (msg : list byte) (flag : Z) (x k : limbs) :
  update msg flag x k
  = if (length msg mod 16 =? 0)%nat then
      Ok (fold_blocks (length msg / 16) msg 0 flag (prepare k) x)
    else Panic index_out_of_range.
Proof.
  pose proof (Nat.div_mod_eq (length msg) 16) as E.
  pose proof (Nat.mod_upper_bound (length msg) 16 ltac:(lia)) as B.
  destruct (length msg mod 16 =? 0)%nat eqn:R.
  - apply Nat.eqb_eq in R. apply update_blocks. lia.
  - apply Nat.eqb_neq in R. unfold update.
    apply (update_loop_ragged flag (prepare k) msg (length msg / 16) (length msg) 0 x);
      lia.
Qed.

(** ** What the decoder and the key setup compute *)

(** The five limbs that [update] reads from a block spell the number of its
    sixteen bytes, least significant first, plus the flag at bit 104 of the
    fifth limb: 2^128 for a full block, nothing for the final one.  Each of
    the first four limbs has 26 bits and the fifth 25. *)
Theorem decode_spells_the_block (msg : list byte) (i : nat) (flag : Z) :
  (i + 16 <= length msg)%nat -> flag = finalBlock \/ flag = msgBlock ->
  block_limbs (decode_at msg i flag)
  /\ value (decode_at msg i flag)
     = le_num (firstn 16 (skipn i msg)) + 2 ^ 104 * flag
  /\ 2 ^ 104 * msgBlock = 2 ^ 128 /\ 2 ^ 104 * finalBlock = 0.
Proof.
  intros H F. destruct (decode_at_value msg i flag H F) as [B V].
  repeat split; try apply B. exact V.
Qed.

Lemma decode_spells_the_block_witness :
  value (decode_at (repeat xff 16) 0 msgBlock) = 2 ^ 129 - 1.
Proof.
  destruct (decode_spells_the_block (repeat xff 16) 0 msgBlock) as (_ & V & _).
  - cbn. lia.
  - now right.
  - rewrite V. vm_compute. reflexivity.
Defined.

(** [initialize] splits a 32-byte key as the algorithm prescribes: the
    multiplier is the number of the first sixteen bytes under the mask
    0x0ffffffc0ffffffc0ffffffc0fffffff, held in limbs of 26 bits, and the
    pad is the number of the last sixteen bytes, held in 32-bit words. *)
Theorem initialize_clamps_the_key (key : list byte) :
  len key = 32 ->
  canonical (fst (initialize key))
  /\ value (fst (initialize key))
     = Z.land (le_num (firstn 16 key)) 0x0ffffffc0ffffffc0ffffffc0fffffff
  /\ words_ok (snd (initialize key))
  /\ wvalue (snd (initialize key)) = le_num (skipn 16 key).
Proof.
  intros H. assert (L : length key = 32%nat) by (unfold len in H; lia).
  destruct (initialize_multiplier key ltac:(lia)) as [C V].
  destruct (initialize_pad key L) as [W S].
  repeat split; try apply C; try apply W; assumption.
Qed.

Lemma initialize_clamps_the_key_witness :
  value (fst (initialize (repeat xff 32))) = 0x0ffffffc0ffffffc0ffffffc0fffffff
  /\ wvalue (snd (initialize (repeat xff 32))) = 2 ^ 128 - 1.
Proof.
  destruct (initialize_clamps_the_key (repeat xff 32) eq_refl) as (_ & V & _ & S).
  rewrite V, S. vm_compute. split; reflexivity.
Defined.

(** ** The engine computes Poly1305 *)

(** Constructed with a 32-byte key and fed a message in one [Write], the
    engine's [Sum] returns its argument followed by the Poly1305 tag of the
    message under that key. *)
Theorem New_Write_Sum_is_poly1305
    (key : list byte) (msg b : slice) (p : polyHash) :
  New key = inl p ->
  fst ((Write msg;; Sum b) p) = Ok (elems b ++ poly1305 key (elems msg)).
Proof.
  intros HN. apply New_inl in HN as [Hk ->].
  erewrite bind_ok by (apply Write_from_empty; reflexivity).
  erewrite holds_Sum.
  - cbn [fst]. now rewrite mac_poly1305.
  - apply (holds_Write key [] msg (fresh key) _ (slen msg, None) (holds_fresh key)).
    apply Write_from_empty; reflexivity.
Qed.

Lemma New_Write_Sum_is_poly1305_witness :
  let key := [x85; xd6; xbe; x78; x57; x55; x6d; x33; x7f; x44; x52; xfe; x42; xd5; x06; xa8;
              x01; x03; x80; x8a; xfb; x0d; xb2; xfd; x4a; xbf; xf6; xaf; x41; x49; xf5; x1b] in
  let msg := [x43; x72; x79; x70; x74; x6f; x67; x72; x61; x70; x68; x69; x63; x20; x46; x6f;
              x72; x75; x6d; x20; x52; x65; x73; x65; x61; x72; x63; x68; x20; x47; x72; x6f;
              x75; x70] in
  fst ((Write (of_bytes msg);; Sum (of_bytes [])) (fresh key)) = Ok (poly1305 key msg)
  /\ poly1305 key msg
     = [xa8; x06; x1d; xc1; x30; x51; x36; xc6; xc2; x2b; x8b; xaf; x0c; x01; x27; xa9].
Proof.
  intros key msg. split.
  - exact (New_Write_Sum_is_poly1305 key (of_bytes msg) (of_bytes []) (fresh key)
             eq_refl).
  - vm_compute. reflexivity.
Defined.

(** ** Which writes the engine accepts *)

(** On a reachable engine [Write] returns, with the length of its input
    and no error, exactly when the buffer is empty or the input reaches the
    end of the buffer; the offset then advances by that length modulo 16.
    On every other input it panics on a slice expression. *)
Theorem Write_returns_iff (msg : slice) (p : polyHash) :
  reachable p ->
  (if (off p =? 0) || (TagSize - off p <=? slen msg) then
     fst (Write msg p) = Ok (slen msg, None)
     /\ off (snd (Write msg p)) = (off p + slen msg) mod TagSize
   else fst (Write msg p) = Panic slice_out_of_range).
Proof.
  intros Hp. apply reachable_well_formed in Hp. pose proof Hp as [Hb Ho].
  unfold TagSize.
  destruct (off p =? 0) eqn:E0; cbn [orb].
  - apply Z.eqb_eq in E0. rewrite Write_from_empty by assumption.
    split; [reflexivity|]. cbn [snd buffered off].
    rewrite E0, Z.add_0_l. unfold len, slen, len.
    rewrite length_tail, Nat2Z.inj_mod. reflexivity.
  - apply Z.eqb_neq in E0. destruct (16 - off p <=? slen msg) eqn:E1.
    + apply Z.leb_le in E1. rewrite Write_from_partial by (try assumption; lia).
      split; [reflexivity|]. cbn [snd buffered off].
      unfold len, slen, len in *.
      rewrite length_tail, length_skipn, Nat2Z.inj_mod.
      rewrite Nat2Z.inj_sub by lia. rewrite Z2Nat.id by lia.
      replace (off p + Z.of_nat (length (elems msg)))
        with (Z.of_nat (length (elems msg)) - (16 - off p) + 1 * 16) by lia.
      now rewrite Z_mod_plus_full.
    + apply Z.leb_gt in E1. rewrite Write_short by (try assumption; lia).
      reflexivity.
Qed.

Lemma Write_returns_iff_witness :
  let p := snd (Write (of_bytes [x01; x02; x03]) (fresh (repeat x00 32))) in
  fst (Write (of_bytes (repeat x04 12)) p) = Panic slice_out_of_range
  /\ off (snd (Write (of_bytes (repeat x04 14)) p)) = 1.
Proof.
  intros p.
  assert (R : reachable p).
  { apply reachable_Write, (reachable_New (repeat x00 32)). reflexivity. }
  split.
  - exact (Write_returns_iff (of_bytes (repeat x04 12)) p R).
  - pose proof (Write_returns_iff (of_bytes (repeat x04 14)) p R) as [_ E].
    rewrite E. reflexivity.
Defined.

Lemma holds_off (key m : list byte) (p : polyHash) :
  holds key m p -> off p = len m mod 16.
Proof.
  intros (_ & _ & _ & _ & Ho & _). rewrite Ho. unfold len.
  rewrite length_tail, Nat2Z.inj_mod. reflexivity.
Qed.

Lemma Writes_accepts (key : list byte) (chunks : list slice) :
  forall (m : list byte) (p : polyHash),
    holds key m p ->
    ((exists p', Writes chunks p = (Ok tt, p')) <-> accepts (off p) chunks = true).
Proof.
  induction chunks as [|c chunks IH]; intros m p H; cbn [Writes accepts].
  - split; [trivial | intros _; now exists p].
  - pose proof (holds_well_formed _ _ _ H) as Hwf. pose proof Hwf as [Hb Ho].
    assert (Next : forall p' v, Write c p = (Ok v, p') ->
                     off p' = (off p + slen c) mod TagSize).
    { intros p' v HW. pose proof (holds_Write _ _ _ _ _ _ H HW) as H'.
      rewrite (holds_off _ _ _ H'), (holds_off _ _ _ H), len_app.
      unfold TagSize, slen. now rewrite Z.add_mod_idemp_l by lia. }
    unfold TagSize in *.
    destruct (Z.eq_dec (off p) 0) as [E|E];
      [|destruct (Z_lt_le_dec (slen c) (16 - off p)) as [L|L]].
    + pose proof (Write_from_empty c p Hb E) as HW.
      erewrite bind_ok by exact HW.
      rewrite (IH _ _ (holds_Write _ _ _ _ _ _ H HW)), (Next _ _ HW).
      replace (off p =? 0) with true by (symmetry; now apply Z.eqb_eq).
      reflexivity.
    + rewrite (bind_panic _ _ _ _ _ (Write_short c p Hwf ltac:(lia) L)).
      replace (off p =? 0) with false by (symmetry; now apply Z.eqb_neq).
      replace (16 - off p <=? slen c) with false by (symmetry; apply Z.leb_gt; lia).
      split; [intros [p' X]; discriminate | discriminate].
    + pose proof (Write_from_partial c p Hwf ltac:(lia) L) as HW.
      erewrite bind_ok by exact HW.
      rewrite (IH _ _ (holds_Write _ _ _ _ _ _ H HW)), (Next _ _ HW).
      replace (16 - off p <=? slen c) with true by (symmetry; apply Z.leb_le; lia).
      now rewrite orb_true_r.
Qed.

(** A fresh engine takes a sequence of chunks, every [Write] returning,
    exactly when each chunk finds the buffer empty or reaches its end; and
    then [Sum] returns the Poly1305 tag of the concatenated chunks.  Chunks
    of at least 15 bytes are always accepted. *)
Theorem Writes_accepted_iff
    (key : list byte) (chunks : list slice) (b : slice) (p : polyHash) :
  New key = inl p ->
  ((exists p', Writes chunks p = (Ok tt, p')) <-> accepts 0 chunks = true)
  /\ (accepts 0 chunks = true ->
      fst ((Writes chunks;; Sum b) p)
      = Ok (elems b ++ poly1305 key (concat (map elems chunks))))
  /\ (Forall (fun c => 15 <= slen c) chunks -> accepts 0 chunks = true).
Proof.
  intros HN. apply New_inl in HN as [Hk ->].
  pose proof (Writes_accepts key chunks [] (fresh key) (holds_fresh key)) as A.
  change (off (fresh key)) with 0 in A.
  split; [exact A|]. split.
  - intros Hacc. apply A in Hacc as [p' HW].
    erewrite bind_ok by exact HW.
    erewrite holds_Sum
      by exact (holds_Writes key chunks [] (fresh key) p' (holds_fresh key) HW).
    cbn [fst app]. now rewrite mac_poly1305.
  - intros Hall. clear A.
    assert (G : forall o, 0 <= o < 16 -> accepts o chunks = true).
    { induction Hall as [|c chunks Hc _ IH]; intros o Ho; cbn [accepts]; [trivial|].
      unfold TagSize. rewrite IH by (apply Z.mod_pos_bound; lia).
      destruct (o =? 0) eqn:E; [reflexivity|]. apply Z.eqb_neq in E.
      replace (16 - o <=? slen c) with true by (symmetry; apply Z.leb_le; lia).
      reflexivity. }
    apply G. lia.
Qed.

Lemma Writes_accepted_iff_witness :
  let key := repeat x07 32 in
  let chunks := [of_bytes (repeat x01 3); of_bytes (repeat x02 13); of_bytes [x03]] in
  accepts 0 chunks = true
  /\ fst ((Writes chunks;; Sum (of_bytes [])) (fresh key))
     = Ok (poly1305 key (repeat x01 3 ++ repeat x02 13 ++ [x03])).
Proof.
  intros key chunks.
  destruct (Writes_accepted_iff key chunks (of_bytes []) (fresh key) eq_refl)
    as (_ & T & _).
  split; [reflexivity|]. exact (T eq_refl).
Defined.

(** ** Frame and output of the methods *)

(** [Write] assigns to the accumulator, the buffer and the offset only: the
    multiplier and the pad of the receiver stay as [New] set them and the
    buffer keeps its sixteen bytes, whether the call returns or panics. *)
Theorem Write_keeps_the_key (msg : slice) (p : polyHash) :
  well_formed p ->
  r (snd (Write msg p)) = r p
  /\ pad (snd (Write msg p)) = pad p
  /\ length (buf (snd (Write msg p))) = 16%nat.
Proof.
  intros Hwf. destruct (Write_key msg p Hwf) as [Hr Hp].
  destruct (Write_well_formed msg p Hwf) as [Hb _].
  now repeat split.
Qed.

Lemma Write_keeps_the_key_witness :
  let p := fresh (repeat x09 32) in
  let q := snd (Write (of_bytes [x01; x02; x03]) p) in
  fst (Write (of_bytes [x04]) q) = Panic slice_out_of_range
  /\ r (snd (Write (of_bytes [x04]) q)) = r p
  /\ pad (snd (Write (of_bytes [x04]) q)) = pad p.
Proof.
  intros p q.
  assert (Hq : well_formed q) by (split; [reflexivity | vm_compute; split; congruence]).
  destruct (Write_keeps_the_key (of_bytes [x04]) q Hq) as (Hr & Hp & _).
  split; [vm_compute; reflexivity|].
  split; [rewrite Hr | rewrite Hp]; vm_compute; reflexivity.
Defined.

(** On a reachable engine [Sum] never panics: the index [p0.off] it writes
    at is inside the buffer.  It returns the bytes of [b] followed by
    exactly [Size()] bytes, and [Size()] and [BlockSize()] are both 16. *)
Theorem Sum_appends_Size_bytes (b : slice) (p : polyHash) :
  reachable p ->
  exists tag : list byte,
    fst (Sum b p) = Ok (elems b ++ tag)
    /\ len tag = Size p /\ Size p = 16 /\ BlockSize p = 16.
Proof.
  intros Hp. exists (finish (final_h p) (pad p)).
  rewrite Sum_value by now apply reachable_well_formed.
  split; [reflexivity|]. unfold len. rewrite length_finish. now repeat split.
Qed.

Lemma Sum_appends_Size_bytes_witness :
  let p := snd (Write (of_bytes (repeat x05 21)) (fresh (repeat x09 32))) in
  exists tag : list byte,
    fst (Sum (of_bytes [x0a; x0b]) p) = Ok ([x0a; x0b] ++ tag) /\ len tag = 16.
Proof.
  intros p.
  assert (R : reachable p).
  { apply reachable_Write, (reachable_New (repeat x09 32)). reflexivity. }
  destruct (Sum_appends_Size_bytes (of_bytes [x0a; x0b]) p R) as (tag & E & L & S & _).
  exists tag. split; [exact E | now rewrite L].
Defined.

(** [Sum] reads the buffer below the offset only.  Two engines that agree
    on the accumulator, the key material, the offset and the buffered bytes
    return the same tag, whatever bytes earlier blocks left in the rest of
    their buffers. *)
Theorem Sum_ignores_stale_bytes (b : slice) (p q : polyHash) :
  well_formed p -> well_formed q ->
  h p = h q -> r p = r q -> pad p = pad q -> off p = off q ->
  firstn (Z.to_nat (off p)) (buf p) = firstn (Z.to_nat (off q)) (buf q) ->
  fst (Sum b p) = fst (Sum b q).
Proof.
  intros Hp Hq Eh Er Epad Eo Eb.
  rewrite !Sum_value by assumption. cbn [fst].
  unfold final_h, padded. now rewrite Eh, Er, Epad, Eb, Eo.
Qed.

Lemma Sum_ignores_stale_bytes_witness :
  let key := repeat x09 32 in
  let p := with_off (with_buf (fresh key) ([x01; x02] ++ repeat x00 14)) 2 in
  let q := with_off (with_buf (fresh key) ([x01; x02] ++ repeat xff 14)) 2 in
  fst (Sum (of_bytes []) p) = fst (Sum (of_bytes []) q).
Proof.
  intros key p q.
  apply (Sum_ignores_stale_bytes (of_bytes []) p q);
    try reflexivity; split; try reflexivity; vm_compute; split; congruence.
Defined.

(** ** Keys with the same clamped multiplier *)

(** The engine reads the first half of the key through the clamp only: two
    keys of 32 bytes whose first halves agree on the bits the clamp keeps,
    and whose second halves are equal, authenticate every message with the
    same tag. *)
Theorem clamped_bits_are_ignored (key key' : list byte) (msg b : slice) :
  len key = 32 -> len key' = 32 ->
  clamp (le_num (firstn 16 key)) = clamp (le_num (firstn 16 key')) ->
  skipn 16 key = skipn 16 key' ->
  fst ((Write msg;; Sum b) (fresh key)) = fst ((Write msg;; Sum b) (fresh key')).
Proof.
  intros Hk Hk' Er Es.
  assert (T : forall k, len k = 32 ->
                fst ((Write msg;; Sum b) (fresh k))
                = Ok (elems b ++ poly1305 k (elems msg))).
  { intros k Hl.
    erewrite bind_ok by (apply Write_from_empty; reflexivity).
    erewrite holds_Sum.
    - cbn [fst app]. now rewrite mac_poly1305.
    - apply (holds_Write k [] msg (fresh k) _ (slen msg, None) (holds_fresh k)).
      apply Write_from_empty; reflexivity. }
  rewrite !T by assumption. unfold poly1305. now rewrite Er, Es.
Qed.

Lemma clamped_bits_are_ignored_witness :
  let key := [x01; x02; x03; x04] ++ repeat x07 28 in
  let key' := [x01; x02; x03; xf4] ++ repeat x07 28 in
  fst ((Write (of_bytes [x61; x62; x63]);; Sum (of_bytes [])) (fresh key))
  = fst ((Write (of_bytes [x61; x62; x63]);; Sum (of_bytes [])) (fresh key')).
Proof.
  intros key key'.
  apply (clamped_bits_are_ignored key key'); vm_compute; reflexivity.
Defined.
